(** * core_application: a two-queue task scheduler

    A model of [src/core_application.cpp].  The class owns a background
    queue drained by one worker thread ([_thread], [dequeueBg]) and a main
    queue drained by [runMainTasks] on the main thread when the external
    pump calls it ([dequeueMain], [runOnMain]).

    The C++ object is shared by several threads, so the model is an
    interleaving semantics: a [state] holds the members of the class, the
    program point of every thread and a history of observable events, and
    [step] moves one chosen thread to its next program point.  A program
    point lies wherever a thread can be pre-empted with a visible effect:
    before a mutex is acquired, inside a critical section, and between a
    critical section and the [notify_one] / pump request that follows it.
    What a thread does inside one critical section is one step: nothing
    else can touch the data the mutex guards meanwhile. *)

From stdpp Require Import base option list.
From Stdlib Require Import Lia.

(** ** Tasks

    A queue element is a [function<void()>]; it is either empty or holds a
    callable.  All the scheduler can observe of a callable is which calls
    to [runOnBgThread] and [runOnMain] its body makes, in order (compare
    [runTask5], whose closures submit further closures).  [name] stands for
    whatever else the body does (the [cout] lines of the demo).

    A task is a finite tree: its body returns, and the closures it
    submits are smaller tasks.  A callable that never returns, or that
    submits itself again without end, is not a task of this model.  The
    invariants below do not depend on this; what is proved about
    executions coming to rest holds for such finite tasks only. *)

Inductive task : Type :=
| Task (name : nat) (body : list call)
with call : Type :=
| RunOnBgThread (f : option task)
| RunOnMain (f : option task).

(** [function<void()>]: [None] is the empty function, which converts to
    [false] in a condition. *)
Definition func : Type := option task.

Definition body_of (t : task) : list call := match t with Task _ b => b end.

(** What a thread other than the worker or the main thread does with the
    object: it submits, and it may destroy the object. *)
Inductive op : Type :=
| Call (c : call)
| Delete.

(** ** Threads and program points *)

Inductive tid : Type :=
| Worker              (* the thread held by [_thread] *)
| MainCtx             (* the main thread, inside [runMainTasks] *)
| Client (i : nat).   (* any other caller *)

Inductive queue : Type := Bg | Main.

Global Instance tid_eq_dec : EqDecision tid.
Proof. solve_decision. Defined.
Global Instance queue_eq_dec : EqDecision queue.
Proof. solve_decision. Defined.

(** Program points inside [runOnBgThread] and [runOnMain]. *)
Inductive pc : Type :=
| BgPush (f : func)    (* [_mutex] held, before [_bgTasks.emplace_back] *)
| BgNotify             (* lock released, before [_condition.notify_one] *)
| MainPush (f : func)  (* [_mainMutex] held, before [_mainTasks.emplace_back] *)
| MainPump.            (* flag set, lock released, before the pump request *)

(** Control of a thread that is executing a task body. *)
Inductive ctl : Type :=
| Between (k : list call)          (* at a statement boundary; [k] remains *)
| Inside (p : pc) (k : list call). (* inside a submission call *)

(** The worker thread: the lambda of [_thread] and [dequeueBg]. *)
Inductive wstate : Type :=
| WLock                    (* [dequeueBg]: about to acquire [_mutex] *)
| WWait                    (* [_mutex] held, evaluating the wait predicate *)
| WSleep                   (* inside [_condition.wait], [_mutex] released *)
| WLoop (f : func)         (* [dequeueBg] returned [f]; loop test pending *)
| WTask (t : task) (c : ctl)  (* inside [task()] *)
| WExited.                 (* the thread function has returned *)

(** The main thread: [runMainTasks] and [dequeueMain]. *)
Inductive mstate : Type :=
| MIdle                    (* not inside [runMainTasks] *)
| MLock                    (* [dequeueMain]: about to acquire [_mainMutex] *)
| MTest                    (* [_mainMutex] held, before the emptiness test *)
| MLoop (f : func)         (* [dequeueMain] returned [f]; loop test pending *)
| MTask (t : task) (c : ctl).

(** Program points of [~core_application]. *)
Inductive dpc : Type :=
| DtorSet      (* [_mutex] held, before [_done = true] *)
| DtorNotify   (* before [_condition.notify_one] *)
| DtorJoin     (* before / blocked in [_thread.join] *)
| DtorFree.    (* body done; the members are destroyed next *)

Inductive cstate : Type :=
| CNext (k : list op)               (* between operations; [k] remains *)
| CCall (p : pc) (k : list op)      (* inside a submission call *)
| CDtor (d : dpc) (k : list op).    (* inside the destructor *)

(** The [std::thread] object as the destructor sees it. *)
Inductive handle : Type :=
| Running      (* the thread function has not returned *)
| Finished     (* it has returned; the thread is still joinable *)
| Joined.

(** ** Observable events

    The history is instrumentation: nothing in [step] reads it. *)
Inductive event : Type :=
| Submit (q : queue) (f : func)    (* [emplace_back] on queue [q] *)
| Dequeue (q : queue) (f : func)   (* [pop_front] on [q] returned [f] *)
| Empty (q : queue)                (* the dequeue of [q] found it empty *)
| Start (q : queue) (t : task)     (* [task()] entered by the drain of [q] *)
| Finish (q : queue) (t : task)    (* [task()] returned *)
| Scheduled                        (* [_scheduledToRunOnMain = true] stored *)
| PumpRequest                      (* [MAIN_THREAD_ASYNC_EM_ASM] issued *)
| DrainEnter                       (* [runMainTasks] entered *)
| DrainReturn                      (* [runMainTasks] returned *)
| Shutdown                         (* [_done = true] stored *)
| WorkerExit                       (* the thread function returned *)
| Join                             (* [_thread.join] returned *)
| Release.                         (* the object's storage is gone *)

(** ** The state *)

(** What the threads share: the members of [core_application], and the
    pump's queue of requested [runMainTasks] calls. *)
Record shared : Type := mkShared {
  (* BG task queue *)
  _mutex : option tid;             (* the owner of [_mutex], if locked *)
  _condition : bool;               (* the worker is blocked in [wait] *)
  _done : bool;
  _bgTasks : list func;
  _thread : handle;
  (* Main queue *)
  _mainMutex : option tid;
  _mainTasks : list func;
  _scheduledToRunOnMain : bool;
  (* outside the object *)
  pumpRequests : nat;              (* requested calls of [runMainTasks] *)
  released : bool;                 (* the destructor has completed *)
  history : list event             (* newest event first *)
}.

Record state : Type := mkState {
  object : shared;
  worker : wstate;
  mainThread : mstate;
  clients : list cstate
}.

Definition set_mutex (v : option tid) (s : shared) : shared :=
  mkShared v (_condition s) (_done s) (_bgTasks s) (_thread s) (_mainMutex s)
    (_mainTasks s) (_scheduledToRunOnMain s) (pumpRequests s) (released s)
    (history s).
Definition set_condition (v : bool) (s : shared) : shared :=
  mkShared (_mutex s) v (_done s) (_bgTasks s) (_thread s) (_mainMutex s)
    (_mainTasks s) (_scheduledToRunOnMain s) (pumpRequests s) (released s)
    (history s).
Definition set_done (v : bool) (s : shared) : shared :=
  mkShared (_mutex s) (_condition s) v (_bgTasks s) (_thread s) (_mainMutex s)
    (_mainTasks s) (_scheduledToRunOnMain s) (pumpRequests s) (released s)
    (history s).
Definition set_bgTasks (v : list func) (s : shared) : shared :=
  mkShared (_mutex s) (_condition s) (_done s) v (_thread s) (_mainMutex s)
    (_mainTasks s) (_scheduledToRunOnMain s) (pumpRequests s) (released s)
    (history s).
Definition set_thread (v : handle) (s : shared) : shared :=
  mkShared (_mutex s) (_condition s) (_done s) (_bgTasks s) v (_mainMutex s)
    (_mainTasks s) (_scheduledToRunOnMain s) (pumpRequests s) (released s)
    (history s).
Definition set_mainMutex (v : option tid) (s : shared) : shared :=
  mkShared (_mutex s) (_condition s) (_done s) (_bgTasks s) (_thread s) v
    (_mainTasks s) (_scheduledToRunOnMain s) (pumpRequests s) (released s)
    (history s).
Definition set_mainTasks (v : list func) (s : shared) : shared :=
  mkShared (_mutex s) (_condition s) (_done s) (_bgTasks s) (_thread s)
    (_mainMutex s) v (_scheduledToRunOnMain s) (pumpRequests s) (released s)
    (history s).
Definition set_scheduledToRunOnMain (v : bool) (s : shared) : shared :=
  mkShared (_mutex s) (_condition s) (_done s) (_bgTasks s) (_thread s)
    (_mainMutex s) (_mainTasks s) v (pumpRequests s) (released s) (history s).
Definition set_pumpRequests (v : nat) (s : shared) : shared :=
  mkShared (_mutex s) (_condition s) (_done s) (_bgTasks s) (_thread s)
    (_mainMutex s) (_mainTasks s) (_scheduledToRunOnMain s) v (released s)
    (history s).
Definition set_released (v : bool) (s : shared) : shared :=
  mkShared (_mutex s) (_condition s) (_done s) (_bgTasks s) (_thread s)
    (_mainMutex s) (_mainTasks s) (_scheduledToRunOnMain s) (pumpRequests s) v
    (history s).
Definition emit (e : event) (s : shared) : shared :=
  mkShared (_mutex s) (_condition s) (_done s) (_bgTasks s) (_thread s)
    (_mainMutex s) (_mainTasks s) (_scheduledToRunOnMain s) (pumpRequests s)
    (released s) (e :: history s).

(** [new core_application()]: both queues empty, nothing locked, the
    worker started. *)
Definition new_core_application : shared :=
  mkShared None false false [] Running None [] false 0 false [].

(** [createApp]: a fresh object with its worker heading for the first
    [dequeueBg]; [progs] are the programs of the callers. *)
Definition createApp (progs : list (list op)) : state :=
  mkState new_core_application WLock MIdle (CNext <$> progs).

(** ** Primitives *)

(** [unique_lock lock{_mutex}]: no step while the mutex is owned. *)
Definition lock_mutex (me : tid) (s : shared) : option shared :=
  match _mutex s with
  | None => Some (set_mutex (Some me) s)
  | Some _ => None
  end.

Definition lock_mainMutex (me : tid) (s : shared) : option shared :=
  match _mainMutex s with
  | None => Some (set_mainMutex (Some me) s)
  | Some _ => None
  end.

Definition unlock_mutex (s : shared) : shared := set_mutex None s.
Definition unlock_mainMutex (s : shared) : shared := set_mainMutex None s.

(** [_condition.notify_one()]: it releases the waiter if there is one,
    and is lost otherwise.  Only the worker ever waits. *)
Definition notify_one (s : shared) : shared := set_condition false s.

(** ** The member functions, one step at a time *)

(** [runOnBgThread(f)] and [runOnMain(f)]: the first step of a call
    acquires the mutex of the queue. *)
Definition call_enter (me : tid) (c : call) (s : shared) : option (pc * shared) :=
  match c with
  | RunOnBgThread f =>
      match lock_mutex me s with
      | Some s' => Some (BgPush f, s')
      | None => None
      end
  | RunOnMain f =>
      match lock_mainMutex me s with
      | Some s' => Some (MainPush f, s')
      | None => None
      end
  end.

(** [runOnBgThread]: push under [_mutex], unlock at the end of the block,
    then [notify_one].  The result is the next program point, or [None]
    when the call returns. *)
Definition runOnBgThread (p : pc) (s : shared) : option pc * shared :=
  match p with
  | BgPush f =>
      (Some BgNotify,
       unlock_mutex (emit (Submit Bg f) (set_bgTasks (_bgTasks s ++ [f]) s)))
  | BgNotify => (None, notify_one s)
  | _ => (None, s)
  end.

(** [runOnMain]: push under [_mainMutex]; with the flag already set,
    return; otherwise set it, unlock and ask the pump for one call of
    [runMainTasks]. *)
Definition runOnMain (p : pc) (s : shared) : option pc * shared :=
  match p with
  | MainPush f =>
      let s1 := emit (Submit Main f) (set_mainTasks (_mainTasks s ++ [f]) s) in
      if _scheduledToRunOnMain s1
      then (None, unlock_mainMutex s1)
      else (Some MainPump,
            unlock_mainMutex (emit Scheduled (set_scheduledToRunOnMain true s1)))
  | MainPump => (None, emit PumpRequest (set_pumpRequests (S (pumpRequests s)) s))
  | _ => (None, s)
  end.

Definition call_step (p : pc) (s : shared) : option pc * shared :=
  match p with
  | BgPush _ | BgNotify => runOnBgThread p s
  | MainPush _ | MainPump => runOnMain p s
  end.

(** One step of a task body; no control in the result means that the
    body has returned. *)
Definition ctl_step (me : tid) (c : ctl) (s : shared) : option (option ctl * shared) :=
  match c with
  | Between [] => Some (None, s)
  | Between (c :: k) =>
      match call_enter me c s with
      | Some (p, s') => Some (Some (Inside p k), s')
      | None => None
      end
  | Inside p k =>
      match call_step p s with
      | (Some p', s') => Some (Some (Inside p' k), s')
      | (None, s') => Some (Some (Between k), s')
      end
  end.

(** [dequeueBg]: lock, wait until the queue is non-empty or [_done], then
    return the empty function on an empty queue, else pop the front.
    A waiting worker goes on, by locking again, once it is notified. *)
Definition dequeueBg (w : wstate) (s : shared) : option (wstate * shared) :=
  match w with
  | WLock =>
      match lock_mutex Worker s with
      | Some s' => Some (WWait, s')
      | None => None
      end
  | WWait =>
      match _bgTasks s with
      | [] =>
          if _done s
          then Some (WLoop None, emit (Empty Bg) (unlock_mutex s))
          else Some (WSleep, unlock_mutex (set_condition true s))
      | result :: rest =>
          Some (WLoop result,
                emit (Dequeue Bg result) (unlock_mutex (set_bgTasks rest s)))
      end
  | WSleep =>
      if _condition s then None
      else match lock_mutex Worker s with
           | Some s' => Some (WWait, s')
           | None => None
           end
  | _ => None
  end.

(** The lambda run by [_thread]:
    [for (auto task = dequeueBg(); task; task = dequeueBg()) task();] *)
Definition thread_step (w : wstate) (s : shared) : option (wstate * shared) :=
  match w with
  | WLock | WWait | WSleep => dequeueBg w s
  | WLoop None => Some (WExited, emit WorkerExit (set_thread Finished s))
  | WLoop (Some t) => Some (WTask t (Between (body_of t)), emit (Start Bg t) s)
  | WTask t c =>
      match ctl_step Worker c s with
      | Some (Some c', s') => Some (WTask t c', s')
      | Some (None, s') => Some (WLock, emit (Finish Bg t) s')
      | None => None
      end
  | WExited => None
  end.

(** A wake-up of [_condition.wait] that no [notify_one] caused. *)
Definition spurious_wake (s : shared) : option shared :=
  if _condition s then Some (set_condition false s) else None.

(** [dequeueMain]: on an empty queue clear [_scheduledToRunOnMain] and
    return the empty function, else pop the front. *)
Definition dequeueMain (m : mstate) (s : shared) : option (mstate * shared) :=
  match m with
  | MLock =>
      match lock_mainMutex MainCtx s with
      | Some s' => Some (MTest, s')
      | None => None
      end
  | MTest =>
      match _mainTasks s with
      | [] =>
          Some (MLoop None,
                emit (Empty Main)
                  (unlock_mainMutex (set_scheduledToRunOnMain false s)))
      | result :: rest =>
          Some (MLoop result,
                emit (Dequeue Main result)
                  (unlock_mainMutex (set_mainTasks rest s)))
      end
  | _ => None
  end.

(** [runMainTasks], entered once per pump request:
    [for (auto task = dequeueMain(); task; task = dequeueMain()) task();] *)
Definition runMainTasks (m : mstate) (s : shared) : option (mstate * shared) :=
  match m with
  | MIdle =>
      match pumpRequests s with
      | 0 => None
      | S n => Some (MLock, emit DrainEnter (set_pumpRequests n s))
      end
  | MLock | MTest => dequeueMain m s
  | MLoop None => Some (MIdle, emit DrainReturn s)
  | MLoop (Some t) => Some (MTask t (Between (body_of t)), emit (Start Main t) s)
  | MTask t c =>
      match ctl_step MainCtx c s with
      | Some (Some c', s') => Some (MTask t c', s')
      | Some (None, s') => Some (MLock, emit (Finish Main t) s')
      | None => None
      end
  end.

(** [~core_application]: set [_done] under [_mutex], notify, join the
    worker; the members are destroyed after the body.  [join] returns
    once the thread function has; joining a thread that is not joinable
    throws, and the caller goes no further. *)
Definition destroy (d : dpc) (s : shared) : option (option dpc * shared) :=
  match d with
  | DtorSet => Some (Some DtorNotify, emit Shutdown (unlock_mutex (set_done true s)))
  | DtorNotify => Some (Some DtorJoin, notify_one s)
  | DtorJoin =>
      match _thread s with
      | Finished => Some (Some DtorFree, emit Join (set_thread Joined s))
      | _ => None
      end
  | DtorFree => Some (None, emit Release (set_released true s))
  end.

Definition client_step (me : tid) (c : cstate) (s : shared) : option (cstate * shared) :=
  match c with
  | CNext [] => None
  | CNext (Call c :: k) =>
      match call_enter me c s with
      | Some (p, s') => Some (CCall p k, s')
      | None => None
      end
  | CNext (Delete :: k) =>
      match lock_mutex me s with
      | Some s' => Some (CDtor DtorSet k, s')
      | None => None
      end
  | CCall p k =>
      match call_step p s with
      | (Some p', s') => Some (CCall p' k, s')
      | (None, s') => Some (CNext k, s')
      end
  | CDtor d k =>
      match destroy d s with
      | Some (Some d', s') => Some (CDtor d' k, s')
      | Some (None, s') => Some (CNext k, s')
      | None => None
      end
  end.

(** ** Interleaving *)

Inductive label : Type :=
| Run (t : tid)     (* thread [t] takes its next step *)
| Spurious.         (* the worker is woken without a notification *)

(** Once the object is released there is nothing left to step on: any
    further access would be a use after free.  Which threads would go on
    nevertheless is what [dangling] below says. *)
Definition step (l : label) (s : state) : option state :=
  if released (object s) then None
  else match l with
       | Run Worker =>
           match thread_step (worker s) (object s) with
           | Some (w', o') => Some (mkState o' w' (mainThread s) (clients s))
           | None => None
           end
       | Run MainCtx =>
           match runMainTasks (mainThread s) (object s) with
           | Some (m', o') => Some (mkState o' (worker s) m' (clients s))
           | None => None
           end
       | Run (Client i) =>
           match clients s !! i with
           | Some c =>
               match client_step (Client i) c (object s) with
               | Some (c', o') =>
                   Some (mkState o' (worker s) (mainThread s) (<[i := c']> (clients s)))
               | None => None
               end
           | None => None
           end
       | Spurious =>
           match spurious_wake (object s) with
           | Some o' => Some (mkState o' (worker s) (mainThread s) (clients s))
           | None => None
           end
       end.

Fixpoint exec (sched : list label) (s : state) : option state :=
  match sched with
  | [] => Some s
  | l :: sched' =>
      match step l s with
      | Some s' => exec sched' s'
      | None => None
      end
  end.

(** The events in the order they happened. *)
Definition trace (s : state) : list event := rev (history (object s)).

(** A scheduler for experiments: always the first thread that can move,
    the callers first. *)
Definition labels (s : state) : list label :=
  (Run ∘ Client <$> seq 0 (length (clients s))) ++ [Run Worker; Run MainCtx].

Fixpoint first_enabled (ls : list label) (s : state) : option (label * state) :=
  match ls with
  | [] => None
  | l :: ls' =>
      match step l s with
      | Some s' => Some (l, s')
      | None => first_enabled ls' s
      end
  end.

Fixpoint run (fuel : nat) (s : state) : list label * state :=
  match fuel with
  | 0 => ([], s)
  | S fuel' =>
      match first_enabled (labels s) s with
      | Some (l, s') => let '(ls, s'') := run fuel' s' in (l :: ls, s'')
      | None => ([], s)
      end
  end.

(** ** A uniform view of the threads *)

Inductive tstate : Type :=
| TW (w : wstate)
| TM (m : mstate)
| TC (c : cstate).

Definition thread (t : tid) (s : state) : option tstate :=
  match t with
  | Worker => Some (TW (worker s))
  | MainCtx => Some (TM (mainThread s))
  | Client i => TC <$> clients s !! i
  end.

Definition tstep (me : tid) (th : tstate) (o : shared) : option (tstate * shared) :=
  match th with
  | TW w => prod_map TW id <$> thread_step w o
  | TM m => prod_map TM id <$> runMainTasks m o
  | TC c => prod_map TC id <$> client_step me c o
  end.

(** The thread identifier a thread of each kind locks with. *)
Definition kind_ok (t : tid) (th : tstate) : Prop :=
  match t, th with
  | Worker, TW _ | MainCtx, TM _ | Client _, TC _ => True
  | _, _ => False
  end.

(** The mutex a program point lies inside, named by the queue it guards:
    [Bg] for [_mutex], [Main] for [_mainMutex]. *)
Definition owner (q : queue) (o : shared) : option tid :=
  match q with Bg => _mutex o | Main => _mainMutex o end.

Definition pc_holds (p : pc) : option queue :=
  match p with
  | BgPush _ => Some Bg
  | MainPush _ => Some Main
  | _ => None
  end.

Definition ctl_holds (c : ctl) : option queue :=
  match c with Inside p _ => pc_holds p | Between _ => None end.

Definition holds (th : tstate) : option queue :=
  match th with
  | TW WWait => Some Bg
  | TW (WTask _ c) => ctl_holds c
  | TM MTest => Some Main
  | TM (MTask _ c) => ctl_holds c
  | TC (CCall p _) => pc_holds p
  | TC (CDtor DtorSet _) => Some Bg
  | _ => None
  end.

(** A thread is inside a critical section exactly when it owns the mutex. *)
Definition lock_inv (s : state) : Prop :=
  forall t q,
    owner q (object s) = Some t <->
    exists th, thread t s = Some th /\ holds th = Some q.

(** ** Reading the history *)

(** The picked events, oldest first. *)
Fixpoint sel {A} (pick : event -> option A) (h : list event) : list A :=
  match h with
  | [] => []
  | e :: h' =>
      match pick e with
      | Some a => sel pick h' ++ [a]
      | None => sel pick h'
      end
  end.

Definition submit_of (q : queue) (e : event) : option func :=
  match e, q with
  | Submit Bg f, Bg | Submit Main f, Main => Some f
  | _, _ => None
  end.

Definition dequeue_of (q : queue) (e : event) : option func :=
  match e, q with
  | Dequeue Bg f, Bg | Dequeue Main f, Main => Some f
  | _, _ => None
  end.

Definition start_of (q : queue) (e : event) : option task :=
  match e, q with
  | Start Bg t, Bg | Start Main t, Main => Some t
  | _, _ => None
  end.

Definition finish_of (q : queue) (e : event) : option task :=
  match e, q with
  | Finish Bg t, Bg | Finish Main t, Main => Some t
  | _, _ => None
  end.

(** In submission order: the functions pushed on queue [q], those popped
    from it, the tasks its drain has entered, and those that returned. *)
Definition submitted (q : queue) (h : list event) : list func := sel (submit_of q) h.
Definition dequeued (q : queue) (h : list event) : list func := sel (dequeue_of q) h.
Definition started (q : queue) (h : list event) : list task := sel (start_of q) h.
Definition finished (q : queue) (h : list event) : list task := sel (finish_of q) h.

Definition is_event (e0 e : event) : bool :=
  match e0, e with
  | Empty Bg, Empty Bg | Empty Main, Empty Main
  | Scheduled, Scheduled | PumpRequest, PumpRequest
  | DrainEnter, DrainEnter | DrainReturn, DrainReturn
  | Shutdown, Shutdown | WorkerExit, WorkerExit
  | Join, Join | Release, Release => true
  | _, _ => false
  end.

(** How often the event [e0] (one without arguments) has happened. *)
Fixpoint count (e0 : event) (h : list event) : nat :=
  match h with
  | [] => 0
  | e :: h' => if is_event e0 e then S (count e0 h') else count e0 h'
  end.

(** [P] held of the earlier history whenever [e0] happened. *)
Fixpoint at_each (e0 : event) (P : list event -> Prop) (h : list event) : Prop :=
  match h with
  | [] => True
  | e :: h' => (if is_event e0 e then P h' else True) /\ at_each e0 P h'
  end.

(** The history before [e0] happened for the first time. *)
Fixpoint before_first (e0 : event) (h : list event) : list event :=
  match h with
  | [] => []
  | e :: h' =>
      if is_event e0 e && (count e0 h' =? 0) then h' else before_first e0 h'
  end.

(** The worker's and the main thread's own events, newest first. *)
Definition by_drain (q : queue) (e : event) : bool :=
  match e, q with
  | (Dequeue Bg _ | Empty Bg | Start Bg _ | Finish Bg _ | WorkerExit), Bg => true
  | (Dequeue Main _ | Empty Main | Start Main _ | Finish Main _
     | DrainEnter | DrainReturn), Main => true
  | _, _ => false
  end.

Fixpoint latest (q : queue) (h : list event) : option event :=
  match h with
  | [] => None
  | e :: h' => if by_drain q e then Some e else latest q h'
  end.

(** The function a drain has popped and not yet tested, and the task it
    is inside. *)
Definition pending_w (w : wstate) : list func :=
  match w with WLoop (Some t) => [Some t] | _ => [] end.
Definition current_w (w : wstate) : list task :=
  match w with WTask t _ => [t] | _ => [] end.
Definition pending_m (m : mstate) : list func :=
  match m with MLoop (Some t) => [Some t] | _ => [] end.
Definition current_m (m : mstate) : list task :=
  match m with MTask t _ => [t] | _ => [] end.

Global Arguments pending_w : simpl nomatch.
Global Arguments current_w : simpl nomatch.
Global Arguments pending_m : simpl nomatch.
Global Arguments current_m : simpl nomatch.

(** ** Invariants of the background queue *)

Record bg_inv (s : state) : Prop := {
  bg_fifo :
    submitted Bg (history (object s))
    = dequeued Bg (history (object s)) ++ _bgTasks (object s);
  bg_deq :
    None ∉ dequeued Bg (history (object s)) ->
    dequeued Bg (history (object s))
    = (Some <$> started Bg (history (object s))) ++ pending_w (worker s);
  bg_run :
    started Bg (history (object s))
    = finished Bg (history (object s)) ++ current_w (worker s);
  bg_handle :
    match worker s with
    | WExited => _thread (object s) <> Running
    | _ => _thread (object s) = Running
    end;
  bg_cond :
    match worker s with
    | WSleep => True
    | _ => _condition (object s) = false
    end;
  bg_done : _done (object s) = true <-> count Shutdown (history (object s)) <> 0;
  bg_loop :
    worker s = WLoop None -> None ∉ dequeued Bg (history (object s)) ->
    latest Bg (history (object s)) = Some (Empty Bg);
  bg_exited :
    worker s = WExited -> latest Bg (history (object s)) = Some WorkerExit;
  bg_why :
    match worker s with
    | WLoop None | WExited =>
        None ∉ dequeued Bg (history (object s)) ->
        _done (object s) = true /\
        submitted Bg (before_first Shutdown (history (object s)))
          `prefix_of` (Some <$> finished Bg (history (object s)))
    | _ => True
    end;
  bg_at_empty :
    at_each (Empty Bg) (fun h =>
      count Shutdown h <> 0 /\
      (None ∉ submitted Bg h -> submitted Bg h = Some <$> finished Bg h))
      (history (object s));
  bg_at_exit :
    at_each WorkerExit (fun h =>
      None ∉ dequeued Bg h -> latest Bg h = Some (Empty Bg))
      (history (object s))
}.

(** ** Invariants of the main queue *)

(** The thread has set [_scheduledToRunOnMain] and not yet issued the
    pump request. *)
Definition at_pump (th : tstate) : nat :=
  match th with
  | TW (WTask _ (Inside MainPump _))
  | TM (MTask _ (Inside MainPump _))
  | TC (CCall MainPump _) => 1
  | _ => 0
  end.

(** [runMainTasks] is running and has not yet seen the queue empty. *)
Definition in_drain (m : mstate) : nat :=
  match m with
  | MIdle | MLoop None => 0
  | _ => 1
  end.

Definition tsum (f : tstate -> nat) (s : state) : nat :=
  f (TW (worker s)) + f (TM (mainThread s)) + sum_list_with (f ∘ TC) (clients s).

(** The outstanding dispatches: requests about to be issued, requests the
    pump has not served yet, and the drain in progress. *)
Definition dispatches (s : state) : nat :=
  tsum at_pump s + pumpRequests (object s) + in_drain (mainThread s).

Definition b2n (b : bool) : nat := if b then 1 else 0.

Global Arguments at_pump : simpl nomatch.
Global Arguments in_drain : simpl nomatch.
Global Arguments b2n : simpl nomatch.

Record main_inv (s : state) : Prop := {
  m_fifo :
    submitted Main (history (object s))
    = dequeued Main (history (object s)) ++ _mainTasks (object s);
  m_deq :
    None ∉ dequeued Main (history (object s)) ->
    dequeued Main (history (object s))
    = (Some <$> started Main (history (object s))) ++ pending_m (mainThread s);
  m_run :
    started Main (history (object s))
    = finished Main (history (object s)) ++ current_m (mainThread s);
  m_flag :
    _mainTasks (object s) <> [] -> _scheduledToRunOnMain (object s) = true;
  m_le : dispatches s <= b2n (_scheduledToRunOnMain (object s));
  m_eq :
    None ∉ dequeued Main (history (object s)) ->
    dispatches s = b2n (_scheduledToRunOnMain (object s));
  m_sched :
    count Scheduled (history (object s))
    = count PumpRequest (history (object s)) + tsum at_pump s;
  m_toggle :
    count Scheduled (history (object s))
    = count (Empty Main) (history (object s))
      + b2n (_scheduledToRunOnMain (object s));
  m_served :
    count PumpRequest (history (object s))
    = count DrainEnter (history (object s)) + pumpRequests (object s);
  m_loop :
    mainThread s = MLoop None -> None ∉ dequeued Main (history (object s)) ->
    latest Main (history (object s)) = Some (Empty Main);
  m_at_enter :
    at_each DrainEnter (fun h =>
      exists queued,
        submitted Main h = dequeued Main h ++ queued /\
        (None ∉ dequeued Main h -> dequeued Main h = Some <$> finished Main h))
      (history (object s));
  m_at_empty :
    at_each (Empty Main) (fun h =>
      None ∉ submitted Main h -> submitted Main h = Some <$> finished Main h)
      (history (object s));
  m_at_return :
    at_each DrainReturn (fun h =>
      None ∉ dequeued Main h -> latest Main h = Some (Empty Main))
      (history (object s))
}.

(** ** Invariants of the life cycle *)

(** Program points of the destructor after [_done = true], and after
    [join]. *)
Definition past_set (th : tstate) : nat :=
  match th with
  | TC (CDtor (DtorNotify | DtorJoin | DtorFree) _) => 1
  | _ => 0
  end.

Definition at_free (th : tstate) : nat :=
  match th with
  | TC (CDtor DtorFree _) => 1
  | _ => 0
  end.

(** The thread has changed what the worker waits for and is about to
    call [notify_one]. *)
Definition at_notify (th : tstate) : nat :=
  match th with
  | TW (WTask _ (Inside BgNotify _))
  | TM (MTask _ (Inside BgNotify _))
  | TC (CCall BgNotify _)
  | TC (CDtor DtorNotify _) => 1
  | _ => 0
  end.

Global Arguments past_set : simpl nomatch.
Global Arguments at_free : simpl nomatch.
Global Arguments at_notify : simpl nomatch.

Record life_inv (s : state) : Prop := {
  l_shutdown :
    count Shutdown (history (object s))
    = tsum past_set s + count Release (history (object s));
  l_join :
    count Join (history (object s))
    = tsum at_free s + count Release (history (object s));
  l_joined :
    count Join (history (object s))
    = match _thread (object s) with Joined => 1 | _ => 0 end;
  l_released :
    count Release (history (object s)) = b2n (released (object s));
  l_exit :
    count WorkerExit (history (object s))
    = match _thread (object s) with Running => 0 | _ => 1 end;
  l_notify :
    _condition (object s) = true ->
    _bgTasks (object s) <> [] \/ _done (object s) = true ->
    tsum at_notify s <> 0;
  l_at_release :
    at_each Release (fun h => count Join h <> 0) (history (object s));
  l_at_join :
    at_each Join (fun h => count WorkerExit h <> 0 /\ count Shutdown h <> 0)
      (history (object s))
}.

(** All the invariants together. *)
Record inv (s : state) : Prop := {
  inv_lock : lock_inv s;
  inv_bg : bg_inv s;
  inv_main : main_inv s;
  inv_life : life_inv s
}.

(** ** A bound on the steps still to be taken

    Every step that is not a spurious wake-up lowers [measure].  A call
    pays in advance for what it sets off: the run of the function it
    submits, the wake-up of the worker, the pump's call of
    [runMainTasks]. *)

Fixpoint task_cost (t : task) : nat :=
  match t with
  | Task _ body =>
      5 + (fix calls (l : list call) : nat :=
             match l with
             | [] => 0
             | c :: l' => call_cost c + calls l'
             end) body
  end
with call_cost (c : call) : nat :=
  match c with
  | RunOnBgThread f => 6 + match f with Some t => task_cost t | None => 0 end
  | RunOnMain f => 7 + match f with Some t => task_cost t | None => 0 end
  end.

Definition func_cost (f : func) : nat :=
  match f with Some t => task_cost t | None => 0 end.

Definition pc_cost (p : pc) : nat :=
  match p with
  | BgPush f => 5 + func_cost f
  | BgNotify => 4
  | MainPush f => 6 + func_cost f
  | MainPump => 5
  end.

Definition ctl_cost (c : ctl) : nat :=
  match c with
  | Between k => sum_list_with call_cost k
  | Inside p k => pc_cost p + sum_list_with call_cost k
  end.

Definition op_cost (o : op) : nat :=
  match o with
  | Call c => call_cost c
  | Delete => 8
  end.

Definition dpc_cost (d : dpc) : nat :=
  match d with
  | DtorSet => 7
  | DtorNotify => 6
  | DtorJoin => 2
  | DtorFree => 1
  end.

Definition thread_cost (th : tstate) : nat :=
  match th with
  | TW WLock => 3
  | TW WWait => 2
  | TW WSleep => 0
  | TW (WLoop f) => 1 + func_cost f
  | TW (WTask _ c) => ctl_cost c + 4
  | TW WExited => 0
  | TM MIdle => 0
  | TM MLock => 3
  | TM MTest => 2
  | TM (MLoop f) => 1 + func_cost f
  | TM (MTask _ c) => ctl_cost c + 4
  | TC (CNext k) => sum_list_with op_cost k
  | TC (CCall p k) => pc_cost p + sum_list_with op_cost k
  | TC (CDtor d k) => dpc_cost d + sum_list_with op_cost k
  end.

(** The steps of a worker that has been notified and not yet gone on. *)
Definition wake_cost (o : shared) (w : wstate) : nat :=
  match w with
  | WSleep => if _condition o then 0 else 3
  | _ => 0
  end.

Global Arguments thread_cost : simpl nomatch.
Global Arguments wake_cost : simpl nomatch.

Definition measure (s : state) : nat :=
  tsum thread_cost s
  + wake_cost (object s) (worker s)
  + 4 * pumpRequests (object s)
  + sum_list_with func_cost (_bgTasks (object s))
  + sum_list_with func_cost (_mainTasks (object s)).

(** No thread can move. *)
Definition terminal (s : state) : Prop :=
  forall t, step (Run t) s = None.

(** Where a thread can be when it cannot move although both mutexes are
    free. *)
Definition blocked (o : shared) (th : tstate) : Prop :=
  match th with
  | TW WSleep => _condition o = true
  | TW WExited => True
  | TM MIdle => pumpRequests o = 0
  | TC (CNext []) => True
  | TC (CDtor DtorJoin _) => _thread o <> Finished
  | _ => False
  end.

(** ** After an empty function

    The worker once [dequeueBg] has returned an empty function: at the
    loop test, or gone. *)
Definition leaving (w : wstate) : Prop := w = WLoop None \/ w = WExited.

(** The flag is set and nothing is left that would clear it. *)
Definition stuck (s : state) : Prop :=
  _scheduledToRunOnMain (object s) = true /\ dispatches s = 0.

(** ** Progress *)

(** [N] submissions to the main queue in a row. *)
Definition runOnMain_all (fs : list func) : list op := Call ∘ RunOnMain <$> fs.

(** From [s] the system comes to rest, whatever the schedule, and [Q]
    holds where it does: no execution without spurious wake-ups is longer
    than [measure s], some execution ends in a state in which no thread
    can move, and every such state reached from [s] satisfies [Q]. *)
Definition inevitably (s : state) (Q : state -> Prop) : Prop :=
  (forall sched s', Spurious ∉ sched -> exec sched s = Some s' ->
     length sched <= measure s) /\
  (exists sched s', exec sched s = Some s' /\ terminal s') /\
  (forall sched s', exec sched s = Some s' -> terminal s' -> Q s').

(** [runTask5] of the demo: bg -> main -> bg -> main. *)
Definition task5 : task :=
  Task 51 [RunOnMain (Some (Task 52 [RunOnBgThread (Some (Task 53
            [RunOnMain (Some (Task 54 []))]))]))].

(** ** Scenarios

    Concrete runs of the model, used below to exercise the theorems.  A
    program is what one calling thread does; a schedule says which thread
    moves at each step. *)


Definition T1 : task := Task 1 [].
Definition T2 : task := Task 2 [].
Definition T3 : task := Task 3 [].

(** [runTask5] and one more main task, run until nothing is left to do. *)
Definition demo_progs : list (list op) :=
  [[Call (RunOnBgThread (Some task5)); Call (RunOnMain (Some T1))]].
Definition demo_sched : list label :=
  replicate 6 (Run (Client 0)) ++ replicate 8 (Run Worker)
  ++ replicate 11 (Run MainCtx) ++ replicate 8 (Run Worker)
  ++ replicate 8 (Run MainCtx).
Definition demo_state : state :=
  Eval vm_compute in default (createApp []) (exec demo_sched (createApp demo_progs)).

(** Two background tasks queued, then the object destroyed while both
    are still in the queue. *)
Definition teardown_progs : list (list op) :=
  [[Call (RunOnBgThread (Some T1)); Call (RunOnBgThread (Some T2)); Delete]].
Definition teardown_sched : list label :=
  replicate 9 (Run (Client 0)) ++ replicate 11 (Run Worker)
  ++ replicate 2 (Run (Client 0)).
Definition teardown_state : state :=
  Eval vm_compute in
    default (createApp []) (exec teardown_sched (createApp teardown_progs)).

(** An empty function in the main queue, with a task behind it. *)
Definition stall_progs : list (list op) :=
  [[Call (RunOnMain None); Call (RunOnMain (Some T1))]].
Definition stall_sched : list label :=
  replicate 5 (Run (Client 0)) ++ replicate 2 (Run Worker)
  ++ replicate 4 (Run MainCtx).
(** ... up to the point where [dequeueMain] is about to pop it. *)
Definition stall_pre : list label :=
  replicate 5 (Run (Client 0)) ++ replicate 2 (Run MainCtx).
Definition stall_state : state :=
  Eval vm_compute in
    default (createApp []) (exec stall_pre (createApp stall_progs)).

(** An empty function in the background queue, between two tasks. *)
Definition gap_progs : list (list op) :=
  [[Call (RunOnBgThread (Some T1)); Call (RunOnBgThread None);
    Call (RunOnBgThread (Some T3))]].
Definition gap_sched : list label :=
  replicate 9 (Run (Client 0)) ++ replicate 7 (Run Worker).
(** ... up to the point where [dequeueBg] is about to pop it. *)
Definition gap_pre : list label :=
  replicate 9 (Run (Client 0)) ++ replicate 5 (Run Worker).
Definition gap_state : state :=
  Eval vm_compute in
    default (createApp []) (exec gap_pre (createApp gap_progs)).

(** Shutdown with an empty function and a task still queued. *)
Definition cut_progs : list (list op) :=
  [[Call (RunOnBgThread None); Call (RunOnBgThread (Some T2)); Delete]].
Definition cut_sched : list label :=
  replicate 9 (Run (Client 0)) ++ replicate 3 (Run Worker)
  ++ replicate 2 (Run (Client 0)).

(** A main task that submits an empty function and then a task. *)
Definition T12 : task := Task 1 [RunOnMain None; RunOnMain (Some T2)].
Definition nest_progs : list (list op) := [[Call (RunOnMain (Some T12))]].
Definition nest_sched : list label :=
  replicate 3 (Run (Client 0)) ++ replicate 2 (Run Worker)
  ++ replicate 12 (Run MainCtx).

(** A task submitted to the main queue, and the object destroyed before
    the pump has called [runMainTasks]. *)
Definition early_progs : list (list op) :=
  [[Call (RunOnMain (Some T1)); Delete]].
Definition early_sched : list label :=
  replicate 6 (Run (Client 0)) ++ replicate 3 (Run Worker)
  ++ replicate 2 (Run (Client 0)).

(** Shutdown with a task, an empty function and another task queued. *)
Definition drop_progs : list (list op) :=
  [[Call (RunOnBgThread (Some T1)); Call (RunOnBgThread None);
    Call (RunOnBgThread (Some T3)); Delete]].
Definition drop_sched : list label :=
  replicate 12 (Run (Client 0)) ++ replicate 7 (Run Worker)
  ++ replicate 2 (Run (Client 0)).

(** A requested call of [runMainTasks] with nothing queued. *)
Definition idle_state : state :=
  mkState (set_pumpRequests 1 new_core_application) WSleep MIdle [].

(** ** Further scenarios *)

(** A task pushed while the worker sleeps, the caller not yet at
    [notify_one]. *)
Definition wake_progs : list (list op) := [[Call (RunOnBgThread (Some T1))]].
Definition wake_sched : list label :=
  replicate 2 (Run Worker) ++ replicate 2 (Run (Client 0)).
Definition wake_state : state :=
  Eval vm_compute in
    default (createApp []) (exec wake_sched (createApp wake_progs)).

(** ** Exploring all interleavings

    Equality tests for the state, and a search of the states a program
    can reach.  The search compares states whose histories are cut down to
    the events of interest, so that it finds finitely many. *)
Fixpoint task_eqb (t u : task) : bool :=
  match t, u with
  | Task n b, Task m c =>
      (n =? m) &&
      (fix go (b c : list call) : bool :=
         match b, c with
         | [], [] => true
         | x :: b', y :: c' => call_eqb x y && go b' c'
         | _, _ => false
         end) b c
  end
with call_eqb (x y : call) : bool :=
  match x, y with
  | RunOnBgThread f, RunOnBgThread g | RunOnMain f, RunOnMain g =>
      match f, g with
      | Some t, Some u => task_eqb t u
      | None, None => true
      | _, _ => false
      end
  | _, _ => false
  end.

Fixpoint calls_eqb (b c : list call) : bool :=
  match b, c with
  | [], [] => true
  | x :: b', y :: c' => call_eqb x y && calls_eqb b' c'
  | _, _ => false
  end.

Definition func_eqb (f g : func) : bool :=
  match f, g with
  | Some t, Some u => task_eqb t u
  | None, None => true
  | _, _ => false
  end.

Fixpoint list_eqb {A} (eqb : A -> A -> bool) (l k : list A) : bool :=
  match l, k with
  | [], [] => true
  | x :: l', y :: k' => eqb x y && list_eqb eqb l' k'
  | _, _ => false
  end.

Definition op_eqb (o p : op) : bool :=
  match o, p with
  | Call c, Call d => call_eqb c d
  | Delete, Delete => true
  | _, _ => false
  end.

Definition tid_eqb (t u : tid) : bool :=
  match t, u with
  | Worker, Worker | MainCtx, MainCtx => true
  | Client i, Client j => i =? j
  | _, _ => false
  end.

Definition owner_eqb (t u : option tid) : bool :=
  match t, u with
  | Some t, Some u => tid_eqb t u
  | None, None => true
  | _, _ => false
  end.

Definition pc_eqb (p q : pc) : bool :=
  match p, q with
  | BgPush f, BgPush g | MainPush f, MainPush g => func_eqb f g
  | BgNotify, BgNotify | MainPump, MainPump => true
  | _, _ => false
  end.

Definition ctl_eqb (c d : ctl) : bool :=
  match c, d with
  | Between k, Between k' => list_eqb call_eqb k k'
  | Inside p k, Inside p' k' => pc_eqb p p' && list_eqb call_eqb k k'
  | _, _ => false
  end.

Definition wstate_eqb (w v : wstate) : bool :=
  match w, v with
  | WLock, WLock | WWait, WWait | WSleep, WSleep | WExited, WExited => true
  | WLoop f, WLoop g => func_eqb f g
  | WTask t c, WTask u d => task_eqb t u && ctl_eqb c d
  | _, _ => false
  end.

Definition mstate_eqb (m n : mstate) : bool :=
  match m, n with
  | MIdle, MIdle | MLock, MLock | MTest, MTest => true
  | MLoop f, MLoop g => func_eqb f g
  | MTask t c, MTask u d => task_eqb t u && ctl_eqb c d
  | _, _ => false
  end.

Definition dpc_eqb (d e : dpc) : bool :=
  match d, e with
  | DtorSet, DtorSet | DtorNotify, DtorNotify
  | DtorJoin, DtorJoin | DtorFree, DtorFree => true
  | _, _ => false
  end.

Definition cstate_eqb (c d : cstate) : bool :=
  match c, d with
  | CNext k, CNext k' => list_eqb op_eqb k k'
  | CCall p k, CCall p' k' => pc_eqb p p' && list_eqb op_eqb k k'
  | CDtor x k, CDtor x' k' => dpc_eqb x x' && list_eqb op_eqb k k'
  | _, _ => false
  end.

Definition handle_eqb (h k : handle) : bool :=
  match h, k with
  | Running, Running | Finished, Finished | Joined, Joined => true
  | _, _ => false
  end.

Definition queue_eqb (q r : queue) : bool :=
  match q, r with
  | Bg, Bg | Main, Main => true
  | _, _ => false
  end.

Definition event_eqb (e e' : event) : bool :=
  match e, e' with
  | Submit q f, Submit r g | Dequeue q f, Dequeue r g =>
      queue_eqb q r && func_eqb f g
  | Empty q, Empty r => queue_eqb q r
  | Start q t, Start r u | Finish q t, Finish r u =>
      queue_eqb q r && task_eqb t u
  | Scheduled, Scheduled | PumpRequest, PumpRequest
  | DrainEnter, DrainEnter | DrainReturn, DrainReturn
  | Shutdown, Shutdown | WorkerExit, WorkerExit
  | Join, Join | Release, Release => true
  | _, _ => false
  end.

Definition shared_eqb (o p : shared) : bool :=
  owner_eqb (_mutex o) (_mutex p)
  && Bool.eqb (_condition o) (_condition p)
  && Bool.eqb (_done o) (_done p)
  && handle_eqb (_thread o) (_thread p)
  && owner_eqb (_mainMutex o) (_mainMutex p)
  && Bool.eqb (_scheduledToRunOnMain o) (_scheduledToRunOnMain p)
  && (pumpRequests o =? pumpRequests p)
  && Bool.eqb (released o) (released p)
  && list_eqb func_eqb (_bgTasks o) (_bgTasks p)
  && list_eqb func_eqb (_mainTasks o) (_mainTasks p)
  && list_eqb event_eqb (history o) (history p).

Definition state_eqb (s s' : state) : bool :=
  wstate_eqb (worker s) (worker s')
  && mstate_eqb (mainThread s) (mainThread s')
  && list_eqb cstate_eqb (clients s) (clients s')
  && shared_eqb (object s) (object s').

(** The events that tell which task ran when, and how often the pump was
    asked. *)
Definition milestone (e : event) : bool :=
  match e with
  | Start _ _ | PumpRequest => true
  | _ => false
  end.

Fixpoint milestones (h : list event) : list event :=
  match h with
  | [] => []
  | e :: h' => if milestone e then e :: milestones h' else milestones h'
  end.

Definition set_history (h : list event) (s : shared) : shared :=
  mkShared (_mutex s) (_condition s) (_done s) (_bgTasks s) (_thread s)
    (_mainMutex s) (_mainTasks s) (_scheduledToRunOnMain s) (pumpRequests s)
    (released s) h.

(** The state with only the milestones left in its history.  No step
    reads the history, so the threads move the same way from it. *)
Definition forget (s : state) : state :=
  mkState (set_history (milestones (history (object s))) (object s))
    (worker s) (mainThread s) (clients s).

Definition moves (s : state) : list state :=
  omap (fun l => forget <$> step l s) (labels s ++ [Spurious]).

Definition known (s : state) (seen : list state) : bool :=
  existsb (state_eqb s) seen.

(** The states reachable from [todo], milestones only, by depth-first
    search. *)
Fixpoint explore (fuel : nat) (todo seen : list state) : option (list state) :=
  match fuel with
  | 0 => None
  | S fuel' =>
      match todo with
      | [] => Some seen
      | s :: todo' =>
          if known s seen then explore fuel' todo' seen
          else explore fuel' (moves s ++ todo') (s :: seen)
      end
  end.

(** Every move from a state of [S] leads into [S]. *)
Definition closed (S : list state) : bool :=
  forallb (fun s => forallb (fun s' => known s' S) (moves s)) S.

Definition at_rest (s : state) : bool :=
  forallb (fun l => match step l s with None => true | Some _ => false end)
    (labels s).

(** The entry points of the demo.  Each submits one closure to the
    background queue; only the closures of [runTask5] call the scheduler
    again. *)
Definition runTask1 : op := Call (RunOnBgThread (Some (Task 1 []))).
Definition runTask2 : op := Call (RunOnBgThread (Some (Task 2 []))).
Definition runTask3 : op := Call (RunOnBgThread (Some (Task 3 []))).
Definition runTask4 : op := Call (RunOnBgThread (Some (Task 4 []))).
Definition runTask5 : op := Call (RunOnBgThread (Some task5)).

(** One caller goes through all of them on a fresh object. *)
Definition runTasks : list op :=
  [runTask1; runTask2; runTask3; runTask4; runTask5].

Definition runTasks_states : list state :=
  Eval vm_compute in
    default [] (explore 4000 [forget (createApp [runTasks])] []).

(** The closures of [runTask5], outermost first. *)
Definition task5_main1 : task :=
  Task 52 [RunOnBgThread (Some (Task 53 [RunOnMain (Some (Task 54 []))]))].
Definition task5_bg2 : task := Task 53 [RunOnMain (Some (Task 54 []))].
Definition task5_main2 : task := Task 54 [].

(** The order in which the demo's closures start, with the pump asked once
    or twice. *)
Definition runTasks_order (again : bool) : list event :=
  [Start Bg (Task 1 []); Start Bg (Task 2 []); Start Bg (Task 3 []);
   Start Bg (Task 4 []); Start Bg task5; PumpRequest; Start Main task5_main1;
   Start Bg task5_bg2]
  ++ (if again then [PumpRequest] else []) ++ [Start Main task5_main2].

Definition runTasks_done (s : state) : bool :=
  (list_eqb event_eqb (rev (history (object s))) (runTasks_order false)
   || list_eqb event_eqb (rev (history (object s))) (runTasks_order true))
  && wstate_eqb (worker s) WSleep && mstate_eqb (mainThread s) MIdle
  && list_eqb func_eqb (_bgTasks (object s)) []
  && list_eqb func_eqb (_mainTasks (object s)) []
  && negb (_scheduledToRunOnMain (object s))
  && (pumpRequests (object s) =? 0)
  && negb (released (object s)).

(** Two schedules of the demo: the worker runs the inner background
    closure before the main thread has looked at its queue again, or
    after [runMainTasks] has returned. *)
Definition runTasks_once : list label :=
  replicate 15 (Run (Client 0)) ++ replicate 25 (Run Worker)
  ++ replicate 7 (Run MainCtx) ++ replicate 8 (Run Worker)
  ++ replicate 8 (Run MainCtx).
Definition runTasks_twice : list label :=
  replicate 15 (Run (Client 0)) ++ replicate 25 (Run Worker)
  ++ replicate 11 (Run MainCtx) ++ replicate 9 (Run Worker)
  ++ replicate 8 (Run MainCtx).

(** The demo has come to rest with all its closures run. *)
Definition runTasks_complete (again : bool) (s : state) : Prop :=
  rev (milestones (history (object s))) = runTasks_order again /\
  finished Bg (history (object s)) = started Bg (history (object s)) /\
  finished Main (history (object s)) = started Main (history (object s)) /\
  worker s = WSleep /\ mainThread s = MIdle /\
  _bgTasks (object s) = [] /\ _mainTasks (object s) = [] /\
  _scheduledToRunOnMain (object s) = false /\
  pumpRequests (object s) = 0 /\ released (object s) = false.

(** ** Handles

    [core_application_ptr] is [intptr_t], a signed integer as wide as a
    pointer, and [to_js] and [to_cpp] are [reinterpret_cast]s: they keep
    the bits.  With [bits] the width of a pointer, an address is the
    unsigned reading of the bits and a handle the signed one. *)
Definition to_js (bits : Z) (app : Z) : Z :=
  if (app <? 2 ^ (bits - 1))%Z then app else (app - 2 ^ bits)%Z.

Definition to_cpp (bits : Z) (app : Z) : Z := (app mod 2 ^ bits)%Z.

(** ** What a drain has served

    The tasks in front of the first empty function of a queue: the ones
    its drain can get to. *)
Fixpoint upto_empty (l : list func) : list task :=
  match l with
  | Some t :: l' => t :: upto_empty l'
  | _ => []
  end.

(** What the worker has popped is what it has started and the function
    it is about to test, until it pops an empty function; from then on it
    is leaving and nothing more is popped or started. *)
Definition bg_served (s : state) : Prop :=
  dequeued Bg (history (object s))
  = (Some <$> started Bg (history (object s))) ++ pending_w (worker s)
  \/ dequeued Bg (history (object s))
     = (Some <$> started Bg (history (object s))) ++ [None]
     /\ leaving (worker s).

(** The same for [runMainTasks], which is stuck once it has popped an
    empty function. *)
Definition main_served (s : state) : Prop :=
  dequeued Main (history (object s))
  = (Some <$> started Main (history (object s))) ++ pending_m (mainThread s)
  \/ dequeued Main (history (object s))
     = (Some <$> started Main (history (object s))) ++ [None]
     /\ stuck s.

(** [N] submissions to the background queue in a row. *)
Definition runOnBgThread_all (fs : list func) : list op :=
  Call ∘ RunOnBgThread <$> fs.

(** ** After the release

    [step] stops every thread once the object is released.  What the code
    of a thread would do next is still given by [tstep]: a thread that has
    a next step then is about to use the freed object. *)
Definition dangling (t : tid) (s : state) : Prop :=
  released (object s) = true /\
  exists th, thread t s = Some th /\ tstep t th (object s) <> None.

(** A main task that calls the scheduler again, and the object destroyed
    while the task is running. *)
Definition T7 : task := Task 7 [RunOnBgThread (Some T1)].
Definition late_progs : list (list op) :=
  [[Call (RunOnMain (Some T7)); Delete]].
Definition late_sched : list label :=
  replicate 3 (Run (Client 0)) ++ replicate 4 (Run MainCtx)
  ++ replicate 3 (Run (Client 0)) ++ replicate 3 (Run Worker)
  ++ replicate 2 (Run (Client 0)).

(** * Proofs *)

Lemma thread_kind t s th : thread t s = Some th -> kind_ok t th.
Proof.
  destruct t; simpl; intros H; simplify_option_eq; done.
Qed.

(** What one step does to the threads: the one that moves takes a [tstep],
    the others stay where they are. *)
Lemma step_run_inv t0 s s' :
  step (Run t0) s = Some s' ->
  released (object s) = false /\
  exists th th',
    thread t0 s = Some th /\ thread t0 s' = Some th' /\
    tstep t0 th (object s) = Some (th', object s') /\
    forall t, t <> t0 -> thread t s' = thread t s.
Proof.
  unfold step. destruct (released (object s)); [done|].
  intros H; split; [done|]. destruct t0 as [| |i]; simpl in *.
  - destruct (thread_step _ _) as [[w' o']|] eqn:E; simplify_eq.
    exists (TW (worker s)), (TW w'); simpl. rewrite E. split_and!; try done.
    intros [] ?; done.
  - destruct (runMainTasks _ _) as [[m' o']|] eqn:E; simplify_eq.
    exists (TM (mainThread s)), (TM m'); simpl. rewrite E. split_and!; try done.
    intros [] ?; done.
  - destruct (clients s !! i) as [c|] eqn:Ec; [|done].
    destruct (client_step _ _ _) as [[c' o']|] eqn:E; simplify_eq.
    exists (TC c), (TC c'); simpl. rewrite E.
    rewrite list_lookup_insert_eq by (by eapply lookup_lt_Some).
    split_and!; try done.
    intros [| |j] ?; simpl; try done.
    rewrite list_lookup_insert_ne by congruence. done.
Qed.

Lemma step_spurious_inv s s' :
  step Spurious s = Some s' ->
  released (object s) = false /\
  spurious_wake (object s) = Some (object s') /\
  forall t, thread t s' = thread t s.
Proof.
  unfold step. destruct (released (object s)); [done|].
  destruct (spurious_wake _) eqn:E; intros; simplify_eq. done.
Qed.

(** Split on every test the hypothesis [H] depends on, innermost first. *)
Ltac cases_in H :=
  repeat match type of H with
  | context [match ?x with _ => _ end] =>
      lazymatch x with
      | context [match _ with _ => _ end] => fail
      | _ => destruct x eqn:?; simpl in H; try discriminate H
      end
  end.

(** Case analysis on a step of one thread. *)
Ltac tstep_cases H :=
  unfold tstep, thread_step, runMainTasks, client_step, dequeueBg, dequeueMain,
    destroy, ctl_step, call_enter, call_step, runOnBgThread, runOnMain,
    lock_mutex, lock_mainMutex in H;
  simpl in H; cases_in H; simplify_eq/=.

Lemma tstep_lock_own t0 th0 th0' o o' q :
  tstep t0 th0 o = Some (th0', o') ->
  kind_ok t0 th0 ->
  (forall q, holds th0 = Some q <-> owner q o = Some t0) ->
  (holds th0' = Some q <-> owner q o' = Some t0).
Proof.
  intros H K0 I0.
  pose proof (I0 Bg) as I0b. pose proof (I0 Main) as I0m.
  destruct th0, t0; try done; tstep_cases H; destruct q; simpl in *;
    intuition congruence.
Qed.

Lemma tstep_owner t0 th0 th0' o o' t q :
  tstep t0 th0 o = Some (th0', o') ->
  kind_ok t0 th0 -> t <> t0 ->
  (forall q, holds th0 = Some q <-> owner q o = Some t0) ->
  (owner q o' = Some t <-> owner q o = Some t).
Proof.
  intros H K0 Hne I0.
  pose proof (I0 Bg) as I0b. pose proof (I0 Main) as I0m.
  destruct th0, t0; try done; tstep_cases H; destruct q; simpl in *;
    intuition congruence.
Qed.

(** Replace the program point of the thread that moves, and what the
    step has read, by their values. *)
Ltac use_pc s :=
  repeat match goal with
  | E : ?f (object s) = _, H' : context [?f (object s)] |- _ =>
      lazymatch type of H' with
      | f (object s) = _ => fail
      | _ => rewrite E in H'
      end
  | E : worker s = _, H' : context [worker s] |- _ =>
      lazymatch type of H' with
      | worker s = _ => fail
      | _ => rewrite E in H'
      end
  | E : mainThread s = _, H' : context [mainThread s] |- _ =>
      lazymatch type of H' with
      | mainThread s = _ => fail
      | _ => rewrite E in H'
      end
  end.

(** Case analysis on a step of the system. *)
Ltac step_cases H :=
  match type of H with
  | step ?l ?s = Some _ =>
      unfold step in H;
      destruct (released (object s)) eqn:?; [discriminate H|];
      destruct l as [[| |?]|];
      [ destruct (worker s) eqn:?
      | destruct (mainThread s) eqn:?
      | destruct (clients s !! _) as [[]|] eqn:?; [ | | |discriminate H]
      | unfold spurious_wake in H ];
      unfold thread_step, runMainTasks, client_step, dequeueBg, dequeueMain,
        destroy, ctl_step, call_enter, call_step, runOnBgThread, runOnMain,
        lock_mutex, lock_mainMutex in H;
      simpl in H; cases_in H; simplify_eq/=; use_pc s
  end.

Lemma exec_invariant (P : state -> Prop) :
  (forall l s s', P s -> step l s = Some s' -> P s') ->
  forall sched s s', P s -> exec sched s = Some s' -> P s'.
Proof.
  intros Hstep sched. induction sched as [|l sched IH]; simpl; intros s s' HP H.
  - by simplify_eq.
  - destruct (step l s) as [s1|] eqn:E; [|done]. eauto.
Qed.

Lemma lock_inv_step l s s' : lock_inv s -> step l s = Some s' -> lock_inv s'.
Proof.
  intros I H. destruct l as [t0|].
  - apply step_run_inv in H as (_ & th0 & th0' & H0 & H0' & Hstep & Hframe).
    assert (forall q, holds th0 = Some q <-> owner q (object s) = Some t0) as I0.
    { intros q. rewrite (I t0 q). split; [eauto|].
      intros (th & Ht & Hh). congruence. }
    intros t q. destruct (decide (t = t0)) as [->|Hne].
    + rewrite <- (tstep_lock_own _ _ _ _ _ q Hstep (thread_kind _ _ _ H0) I0).
      split; [eauto|]. intros (th & Ht & Hh). congruence.
    + rewrite (tstep_owner _ _ _ _ _ t q Hstep (thread_kind _ _ _ H0) Hne I0).
      rewrite (I t q), Hframe by done. done.
  - apply step_spurious_inv in H as (_ & Hw & Hframe).
    intros t q. rewrite Hframe, <- (I t q).
    unfold spurious_wake in Hw. case_match; simplify_eq.
    match goal with E : _ = object s' |- _ => rewrite <- E end. by destruct q.
Qed.

Lemma lock_inv_init progs : lock_inv (createApp progs).
Proof.
  intros t q. split; [by destruct q|].
  intros (th & Ht & Hh). destruct t as [| |i]; simpl in *; simplify_eq; try done.
  rewrite list_lookup_fmap in Ht. destruct (progs !! i); simplify_eq/=.
Qed.

Ltac hsimp := unfold submitted, dequeued, started, finished in *; simpl in *.

Ltac premises :=
  repeat match goal with
  | Hn : None ∉ _ ++ _ |- _ => apply not_elem_of_app in Hn as [? ?]
  end;
  repeat match goal with
  | H : ?P -> _, Hp : ?P |- _ => specialize (H Hp)
  end.

(** A popped function is a task, or an empty function that has been
    dequeued. *)
Ltac popped f :=
  destruct f;
  [ | try (exfalso;
           match goal with Hn : None ∉ [None] |- _ => apply Hn; left end) ].

Lemma sel_before_first {A} (pick : event -> option A) e0 h :
  sel pick (before_first e0 h) `prefix_of` sel pick h.
Proof.
  induction h as [|e h IH]; simpl; [done|].
  assert (sel pick h `prefix_of` sel pick (e :: h)) as Hh.
  { simpl. destruct (pick e); [by apply prefix_app_r|done]. }
  destruct (is_event e0 e && (count e0 h =? 0)); [done|].
  by etrans.
Qed.

Lemma before_first_later e0 e h :
  count e0 h <> 0 -> before_first e0 (e :: h) = before_first e0 h.
Proof.
  intros Hc. simpl. destruct (Nat.eqb_spec (count e0 h) 0); [done|].
  by rewrite andb_false_r.
Qed.

Lemma bg_inv_step l s s' : bg_inv s -> step l s = Some s' -> bg_inv s'.
Proof.
  intros [Hfifo Hdeq Hrun Hhandle Hcond Hdone Hloop Hexited Hwhy Hempty Hexit] H.
  step_cases H; split; hsimp; try done; try congruence.
  all: rewrite ?app_nil_r, ?fmap_app, <- ?app_assoc in *; simpl;
    try done; try congruence.
  all: try (by rewrite Hfifo, <- app_assoc).
  all: try (destruct (worker s) as [| | |[?|]| |]; done).
  all: try (intros; premises; try split; try done; try congruence;
            try apply Hdone; try done).
  - rewrite <- Hrun, <- Hdeq, <- Hfifo by done. apply sel_before_first.
  - split; [by apply Hdone|]. rewrite Hfifo.
    intros Hn. rewrite <- Hrun. auto.
  - popped f. simpl. f_equal. auto.
  - simplify_eq. exfalso. auto using list_elem_of_here.
  - destruct f; [done|]. intros Hn. exfalso. apply Hn, elem_of_app.
    right. left.
  - auto.
  - destruct (worker s) as [| | |[?|]| |]; try done.
    all: intros Hn; destruct (Hwhy Hn) as [Hd Hp]; split; [done|].
    all: apply Hdone in Hd.
    all: by destruct (Nat.eqb_spec (count Shutdown (history (object s))) 0).
Qed.

Lemma bg_inv_init progs : bg_inv (createApp progs).
Proof. split; simpl; done. Qed.


Lemma sum_list_with_insert {A} (f : A -> nat) (l : list A) i c c' :
  l !! i = Some c ->
  sum_list_with f (<[i := c']> l) + f c = sum_list_with f l + f c'.
Proof.
  revert i. induction l as [|x l IH]; intros [|i] H; simplify_eq/=; [lia|].
  specialize (IH _ H). lia.
Qed.

Lemma sum_list_with_lookup {A} (f : A -> nat) (l : list A) i c :
  l !! i = Some c -> f c <= sum_list_with f l.
Proof.
  revert i. induction l as [|x l IH]; intros [|i] H; simplify_eq/=; [lia|].
  specialize (IH _ H). lia.
Qed.

(** The sums over the callers after one of them has moved. *)
Ltac sums :=
  repeat match goal with
  | H : clients ?s !! ?i = Some ?c
    |- context [sum_list_with ?f (<[?i := ?c']> (clients ?s))] =>
      lazymatch goal with
      | _ : sum_list_with f (<[i := c']> (clients s)) + _ = _ |- _ => fail
      | _ => pose proof (sum_list_with_insert f _ _ _ c' H)
      end
  end.

(** Replace what the step has read by its value in the goal. *)
Ltac read_goal :=
  repeat match goal with
  | E : ?f (object ?s) = _ |- context [?f (object ?s)] => rewrite E
  end.

Ltac flag s :=
  destruct (_scheduledToRunOnMain (object s)) eqn:?; simpl in *.

Lemma main_inv_step l s s' : main_inv s -> step l s = Some s' -> main_inv s'.
Proof.
  intros [Hfifo Hdeq Hrun Hflag Hle Heq Hsched Htoggle Hserved Hloop Henter
            Hempty Hreturn] H.
  unfold dispatches, tsum in *.
  step_cases H; split; unfold dispatches, tsum in *; hsimp; try done;
    try congruence.
  all: rewrite ?app_nil_r, ?fmap_app, <- ?app_assoc in *; simpl;
    try done; try congruence.
  all: try (by rewrite Hfifo, <- app_assoc).
  all: try lia.
  all: try (sums; simpl in *; lia).
  all: try (intros; premises; read_goal; simpl; try done; try congruence;
            try lia; sums; simpl in *; try lia; flag s; lia).
  - split; [|done]. eexists; split; [exact Hfifo|].
    intros Hn. rewrite <- Hrun. auto.
  - split; [|done]. rewrite Hfifo. intros Hn. rewrite <- Hrun. auto.
  - intros; premises. popped f. simpl. f_equal. auto.
  - destruct f; simpl in *; lia.
  - intros; premises. popped f. simpl in *. lia.
  - intros; premises. simplify_eq. exfalso. auto using list_elem_of_here.
  - split; [|done]. auto.
Qed.

Lemma sum_clients_init (f : tstate -> nat) progs :
  (forall k, f (TC (CNext k)) = 0) ->
  sum_list_with (f ∘ TC) (CNext <$> progs) = 0.
Proof.
  intros Hf. induction progs as [|k progs IH]; [done|].
  simpl. rewrite Hf. exact IH.
Qed.

Lemma main_inv_init progs : main_inv (createApp progs).
Proof.
  split; unfold dispatches, tsum; simpl; try done.
  all: rewrite sum_clients_init by done; done.
Qed.

Lemma life_inv_step l s s' :
  bg_inv s -> life_inv s -> step l s = Some s' -> life_inv s'.
Proof.
  intros [Hfifo Hdeq Hrun Hhandle Hcond Hdone Hloop Hexited Hwhy Hempty Hexit]
         [Hsh Hj Hjd Hrel Hex Hnot Har Haj] H.
  unfold tsum in *.
  step_cases H; split; unfold tsum in *; hsimp; try done; try congruence.
  all: try lia.
  all: try (sums; simpl in *; lia).
  all: try (intros; premises; read_goal; simpl; try done; try congruence;
            try lia; sums; simpl in *; try lia).
  - destruct H0; congruence.
  - match goal with E : clients s !! _ = Some _ |- _ =>
      pose proof (sum_list_with_lookup (past_set ∘ TC) _ _ _ E) end.
    simpl in *. split; [lia|done].
  - match goal with E : clients s !! _ = Some _ |- _ =>
      pose proof (sum_list_with_lookup (at_free ∘ TC) _ _ _ E) end.
    simpl in *. split; [lia|done].
Qed.

Lemma life_inv_init progs : life_inv (createApp progs).
Proof.
  split; unfold tsum; simpl; try done.
  all: rewrite sum_clients_init by done; done.
Qed.



Lemma task_cost_body t : task_cost t = 5 + sum_list_with call_cost (body_of t).
Proof. destruct t as [n body]. simpl. do 5 f_equal. Qed.

Global Opaque task_cost.

(** Every step but a spurious wake-up lowers the measure. *)
Lemma measure_step l s s' :
  l <> Spurious -> step l s = Some s' -> measure s' < measure s.
Proof.
  intros Hl H.
  unfold measure, tsum in *.
  step_cases H; unfold measure, tsum in *; simpl in *;
    rewrite ?sum_list_with_app, ?task_cost_body; simpl; read_goal; simpl;
    try lia.
  all: sums; simpl in *; unfold wake_cost, func_cost in *; simpl in *;
    read_goal; try lia.
  all: try (destruct (worker s); simpl; try lia;
            destruct (_condition (object s)); simpl; lia).
Qed.

Lemma inv_init progs : inv (createApp progs).
Proof.
  split; auto using lock_inv_init, bg_inv_init, main_inv_init, life_inv_init.
Qed.

Lemma inv_step l s s' : inv s -> step l s = Some s' -> inv s'.
Proof.
  intros [] H.
  split; eauto using lock_inv_step, bg_inv_step, main_inv_step, life_inv_step.
Qed.

Lemma inv_exec sched s s' : inv s -> exec sched s = Some s' -> inv s'.
Proof. apply exec_invariant. intros l s1 s2. apply inv_step. Qed.

Lemma inv_reachable progs sched s :
  exec sched (createApp progs) = Some s -> inv s.
Proof. apply inv_exec, inv_init. Qed.

(** ** States in which no thread can move *)

Lemma step_none_tstep t s th :
  step (Run t) s = None -> released (object s) = false ->
  thread t s = Some th -> tstep t th (object s) = None.
Proof.
  unfold step. intros H Hr Ht. rewrite Hr in H.
  destruct t as [| |i]; simpl in *; simplify_eq; simpl.
  - by destruct (thread_step _ _) as [[]|].
  - by destruct (runMainTasks _ _) as [[]|].
  - destruct (clients s !! i) as [c|]; simplify_eq/=.
    by destruct (client_step _ _ _) as [[]|].
Qed.

(** A thread inside a critical section can always go on. *)
Lemma tstep_holder t th o q :
  holds th = Some q -> tstep t th o <> None.
Proof.
  intros Hh H. destruct th as [w|m|c]; simpl in *.
  - destruct w as [| | |?|? [|[]]|]; simplify_eq/=.
    all: unfold thread_step, dequeueBg, ctl_step, call_step, runOnBgThread, runOnMain in H;
      simpl in H; repeat case_match; simplify_eq/=.
  - destruct m as [| | |?|? [|[]]]; simplify_eq/=.
    all: unfold runMainTasks, dequeueMain, ctl_step, call_step, runOnBgThread, runOnMain in H;
      simpl in H; repeat case_match; simplify_eq/=.
  - destruct c as [|[]|[]]; simplify_eq/=.
    all: unfold client_step, destroy, call_step, runOnBgThread, runOnMain in H;
      simpl in H; repeat case_match; simplify_eq/=.
Qed.

Lemma tstep_blocked t th o :
  tstep t th o = None -> _mutex o = None -> _mainMutex o = None ->
  blocked o th.
Proof.
  intros H Hm Hmm. destruct th as [w|m|c]; simpl in *.
  - destruct w as [| | |[]|? [[|[]]|[]]|]; simpl; try done.
    all: unfold thread_step, dequeueBg, ctl_step, call_enter, call_step,
           runOnBgThread, runOnMain, lock_mutex, lock_mainMutex in H;
      simpl in H; rewrite ?Hm, ?Hmm in H; simpl in H;
      repeat case_match; simplify_eq/=; try done.
  - destruct m as [| | |[]|? [[|[]]|[]]]; simpl; try done.
    all: unfold runMainTasks, dequeueMain, ctl_step, call_enter, call_step,
           runOnBgThread, runOnMain, lock_mutex, lock_mainMutex in H;
      simpl in H; rewrite ?Hm, ?Hmm in H; simpl in H;
      repeat case_match; simplify_eq/=; try done.
  - destruct c as [[|[[]|]]|[]|[]]; simpl; try done.
    all: unfold client_step, destroy, call_enter, call_step,
           runOnBgThread, runOnMain, lock_mutex, lock_mainMutex in H;
      simpl in H; rewrite ?Hm, ?Hmm in H; simpl in H;
      repeat case_match; simplify_eq/=; try done.
Qed.

Lemma terminal_unlocked s :
  lock_inv s -> terminal s -> released (object s) = false ->
  _mutex (object s) = None /\ _mainMutex (object s) = None.
Proof.
  intros I Ht Hr.
  assert (forall q, owner q (object s) = None) as Ho.
  { intros q. destruct (owner q (object s)) as [t|] eqn:E; [|done].
    apply I in E as (th & Hth & Hh). exfalso.
    eapply tstep_holder; [done|]. by apply step_none_tstep. }
  split; [apply (Ho Bg)|apply (Ho Main)].
Qed.

Lemma terminal_blocked s t th :
  lock_inv s -> terminal s -> released (object s) = false ->
  thread t s = Some th -> blocked (object s) th.
Proof.
  intros I Ht Hr Hth. destruct (terminal_unlocked s I Ht Hr).
  eapply tstep_blocked; eauto using step_none_tstep.
Qed.

Lemma sum_list_with_pos {A} (f : A -> nat) (l : list A) :
  sum_list_with f l <> 0 -> exists i c, l !! i = Some c /\ f c <> 0.
Proof.
  induction l as [|x l IH]; simpl; [done|]. intros H.
  destruct (decide (f x = 0)) as [E|E].
  - destruct IH as (i & c & ? & ?); [lia|]. by exists (S i), c.
  - by exists 0, x.
Qed.

Lemma tsum_pos f s :
  tsum f s <> 0 -> exists t th, thread t s = Some th /\ f th <> 0.
Proof.
  unfold tsum. intros H.
  destruct (decide (f (TW (worker s)) = 0)); [|by exists Worker, (TW (worker s))].
  destruct (decide (f (TM (mainThread s)) = 0));
    [|by exists MainCtx, (TM (mainThread s))].
  destruct (sum_list_with_pos (f ∘ TC) (clients s)) as (i & c & Hi & Hc); [lia|].
  exists (Client i), (TC c). simpl. by rewrite Hi.
Qed.

Lemma tsum_terminal f s :
  lock_inv s -> terminal s -> released (object s) = false ->
  (forall th, blocked (object s) th -> f th = 0) -> tsum f s = 0.
Proof.
  intros I Ht Hr Hf. destruct (decide (tsum f s = 0)) as [|Hne]; [done|].
  apply tsum_pos in Hne as (t & th & Hth & Hne).
  exfalso. apply Hne, Hf. by eapply terminal_blocked.
Qed.

Lemma terminal_bg s :
  inv s -> terminal s -> released (object s) = false ->
  None ∉ dequeued Bg (history (object s)) ->
  worker s = WSleep /\ _bgTasks (object s) = [] /\ _done (object s) = false /\
  submitted Bg (history (object s)) = Some <$> finished Bg (history (object s)).
Proof.
  intros [IL IB IM II] Ht Hr Hn.
  pose proof (terminal_blocked s Worker _ IL Ht Hr eq_refl) as Hb.
  pose proof (bg_handle s IB) as Hh. pose proof (bg_why s IB) as Hw.
  pose proof (l_released s II) as Hrel. rewrite Hr in Hrel. simpl in Hrel.
  destruct (worker s) as [| | |?|? ?|] eqn:Ew; try done; simpl in Hb.
  - (* asleep *)
    assert (tsum at_notify s = 0) as Hz.
    { apply tsum_terminal; try done. by intros [[]|[]|[[]| |[]]]. }
    assert (_bgTasks (object s) = [] /\ _done (object s) = false) as [Eq Ed].
    { destruct (_bgTasks (object s)) eqn:Eq, (_done (object s)) eqn:Ed;
        try done; exfalso; eapply (l_notify s II); eauto.
      all: rewrite Eq; auto. }
    split_and!; try done.
    rewrite (bg_fifo s IB), Eq, app_nil_r, (bg_deq s IB Hn), Ew, (bg_run s IB), Ew.
    simpl. by rewrite !app_nil_r.
  - (* exited: some destructor is still inside, and it can move *)
    exfalso. destruct (Hw Hn) as [Hd _].
    apply (bg_done s IB) in Hd.
    pose proof (l_shutdown s II) as Hs.
    assert (tsum past_set s <> 0) as Hp by lia.
    apply tsum_pos in Hp as (t & th & Hth & Hp).
    pose proof (terminal_blocked s t th IL Ht Hr Hth) as Hbt.
    assert (tsum at_free s = 0) as Hz.
    { apply tsum_terminal; try done. by intros [[]|[]|[[]| |[]]]. }
    pose proof (l_join s II) as Hj. pose proof (l_joined s II) as Hjd.
    destruct th as [?|?|[[]| |[]]]; try done; simpl in Hbt.
    destruct (_thread (object s)); try done. lia.
Qed.

Lemma terminal_main s :
  inv s -> terminal s -> released (object s) = false ->
  None ∉ dequeued Main (history (object s)) ->
  mainThread s = MIdle /\ _mainTasks (object s) = [] /\
  _scheduledToRunOnMain (object s) = false /\ pumpRequests (object s) = 0 /\
  submitted Main (history (object s))
  = Some <$> finished Main (history (object s)).
Proof.
  intros [IL IB IM II] Ht Hr Hn.
  pose proof (terminal_blocked s MainCtx _ IL Ht Hr eq_refl) as Hb.
  destruct (mainThread s) eqn:Em; try done; simpl in Hb.
  assert (tsum at_pump s = 0) as Hz.
  { apply tsum_terminal; try done. by intros [[]|[]|[[]| |[]]]. }
  pose proof (m_eq s IM Hn) as He. unfold dispatches in He.
  rewrite Hz, Hb, Em in He. simpl in He.
  assert (_scheduledToRunOnMain (object s) = false) as Ef
    by (by destruct (_scheduledToRunOnMain (object s))).
  assert (_mainTasks (object s) = []) as Eq.
  { destruct (_mainTasks (object s)) eqn:Eq; [done|].
    pose proof (m_flag s IM) as Hf. rewrite Eq in Hf.
    rewrite Hf in Ef; done. }
  split_and!; try done.
  rewrite (m_fifo s IM), Eq, app_nil_r, (m_deq s IM Hn), Em, (m_run s IM), Em.
  simpl. by rewrite !app_nil_r.
Qed.

Lemma terminal_clients s i c :
  inv s -> terminal s -> released (object s) = false ->
  None ∉ dequeued Bg (history (object s)) ->
  clients s !! i = Some c -> c = CNext [].
Proof.
  intros I Ht Hr Hn Hc.
  destruct (terminal_bg s I Ht Hr Hn) as (_ & _ & Hd & _).
  destruct I as [IL IB IM II].
  assert (thread (Client i) s = Some (TC c)) as Hth by (simpl; by rewrite Hc).
  pose proof (terminal_blocked s _ _ IL Ht Hr Hth) as Hb.
  destruct c as [[]| |[]]; try done. exfalso.
  pose proof (sum_list_with_lookup (past_set ∘ TC) _ _ _ Hc) as Hp.
  pose proof (l_shutdown s II) as Hs. unfold tsum in Hs. simpl in Hp.
  assert (count Shutdown (history (object s)) <> 0) as Hs' by lia.
  apply (bg_done s IB) in Hs'. congruence.
Qed.

(** Once [_done] is set the destructor gets to its end. *)
Lemma terminal_released s :
  inv s -> terminal s ->
  None ∉ dequeued Bg (history (object s)) ->
  count Shutdown (history (object s)) <> 0 ->
  released (object s) = true.
Proof.
  intros I Ht Hn Hs. destruct (released (object s)) eqn:Hr; [done|].
  destruct (terminal_bg s I Ht Hr Hn) as (_ & _ & Hd & _).
  apply (bg_done s (inv_bg s I)) in Hs. congruence.
Qed.

Lemma released_joined s :
  inv s -> released (object s) = true ->
  worker s = WExited /\ _thread (object s) = Joined.
Proof.
  intros [IL IB IM II] Hr.
  pose proof (l_released s II) as Hrel. rewrite Hr in Hrel. simpl in Hrel.
  pose proof (l_join s II) as Hj. pose proof (l_joined s II) as Hjd.
  pose proof (bg_handle s IB) as Hh.
  destruct (_thread (object s)) eqn:E; try lia.
  destruct (worker s); done.
Qed.

(** ** Executions *)

Lemma exec_app sched1 sched2 s :
  exec (sched1 ++ sched2) s = exec sched1 s ≫= exec sched2.
Proof.
  revert s. induction sched1 as [|l sched1 IH]; intros s; simpl; [done|].
  destruct (step l s); simpl; auto.
Qed.

Lemma exec_measure sched s s' :
  Spurious ∉ sched -> exec sched s = Some s' ->
  length sched + measure s' <= measure s.
Proof.
  revert s. induction sched as [|l sched IH]; intros s Hs H; simpl in *.
  - simplify_eq. lia.
  - destruct (step l s) as [s1|] eqn:E; [|done].
    apply not_elem_of_cons in Hs as [Hl Hs].
    apply measure_step in E; [|done]. specialize (IH _ Hs H). lia.
Qed.

Lemma first_enabled_spec ls s :
  match first_enabled ls s with
  | Some (l, s') => l ∈ ls /\ step l s = Some s'
  | None => forall l, l ∈ ls -> step l s = None
  end.
Proof.
  induction ls as [|l ls IH]; simpl.
  - intros l Hl. by apply elem_of_nil in Hl.
  - destruct (step l s) as [s'|] eqn:E.
    + split; [left|done].
    + destruct (first_enabled ls s) as [[l' s']|].
      * destruct IH. split; [by right|done].
      * intros l' [->|Hl]%elem_of_cons; auto.
Qed.

Lemma labels_spec s t : Run t ∈ labels s \/ step (Run t) s = None.
Proof.
  unfold labels. destruct t as [| |i].
  - left. apply elem_of_app. right. left.
  - left. apply elem_of_app. right. right. left.
  - destruct (decide (i < length (clients s))) as [Hi|Hi].
    + left. apply elem_of_app. left. apply list_elem_of_fmap.
      exists i. split; [done|]. apply elem_of_seq. lia.
    + right. unfold step. destruct (released (object s)); [done|].
      rewrite lookup_ge_None_2 by lia. done.
Qed.

Lemma labels_run s : Spurious ∉ labels s.
Proof.
  unfold labels. intros [H|H]%elem_of_app.
  - apply list_elem_of_fmap in H as (i & ? & _). done.
  - repeat (apply elem_of_cons in H as [?|H]; [done|]). by apply elem_of_nil in H.
Qed.

(** With fuel for [measure s] steps [run] takes the system to a state
    in which no thread can move, along an execution of the system. *)
Lemma run_terminal fuel s :
  measure s <= fuel ->
  exec (run fuel s).1 s = Some (run fuel s).2 /\ terminal (run fuel s).2 /\
  Spurious ∉ (run fuel s).1.
Proof.
  revert s. induction fuel as [|fuel IH]; intros s Hm; simpl.
  - pose proof (first_enabled_spec (labels s) s) as Hf.
    destruct (first_enabled (labels s) s) as [[l s']|].
    + destruct Hf as [Hl Hs]. apply measure_step in Hs; [lia|].
      intros ->. by apply labels_run in Hl.
    + split_and!; [done| |apply not_elem_of_nil].
      intros t. destruct (labels_spec s t); auto.
  - pose proof (first_enabled_spec (labels s) s) as Hf.
    destruct (first_enabled (labels s) s) as [[l s']|].
    + destruct Hf as [Hl Hs].
      assert (l <> Spurious) as Hne by (intros ->; by apply labels_run in Hl).
      pose proof (measure_step _ _ _ Hne Hs) as Hlt.
      destruct (IH s') as (He & Ht & Hsp); [lia|].
      destruct (run fuel s') as [ls s'']. simpl in *. rewrite Hs.
      split_and!; try done. by apply not_elem_of_cons.
    + simpl. split_and!; [done| |apply not_elem_of_nil].
      intros t. destruct (labels_spec s t); auto.
Qed.

Lemma sel_app {A} (pick : event -> option A) h2 h1 :
  sel pick (h2 ++ h1) = sel pick h1 ++ sel pick h2.
Proof.
  induction h2 as [|e h2 IH]; simpl; [by rewrite app_nil_r|].
  destruct (pick e); [|done]. by rewrite IH, app_assoc.
Qed.

Lemma at_each_split e0 (P : list event -> Prop) h h2 e h1 :
  at_each e0 P h -> h = h2 ++ e :: h1 -> is_event e0 e = true -> P h1.
Proof.
  intros H -> He. induction h2 as [|e' h2 IH]; simpl in H.
  - rewrite He in H. tauto.
  - tauto.
Qed.

Lemma count_app e0 h2 h1 : count e0 (h2 ++ h1) = count e0 h2 + count e0 h1.
Proof.
  induction h2 as [|e h2 IH]; simpl; [done|].
  destruct (is_event e0 e); lia.
Qed.

Lemma before_first_split e0 e h2 h1 :
  is_event e0 e = true -> count e0 h1 = 0 ->
  before_first e0 (h2 ++ e :: h1) = h1.
Proof.
  intros He Hc. induction h2 as [|e' h2 IH]; simpl.
  - rewrite He, Hc. done.
  - rewrite IH, count_app. simpl. rewrite He.
    destruct (Nat.eqb_spec (count e0 h2 + S (count e0 h1)) 0); [lia|].
    by rewrite andb_false_r.
Qed.

(** ** After an empty function *)

(** *** The worker after [dequeueBg] has returned an empty function *)


Lemma leaving_step l s s' :
  step l s = Some s' -> leaving (worker s) ->
  leaving (worker s') /\
  (worker s = WExited -> worker s' = WExited) /\
  started Bg (history (object s')) = started Bg (history (object s)) /\
  exists more,
    _bgTasks (object s') = _bgTasks (object s) ++ more /\
    submitted Bg (history (object s')) = submitted Bg (history (object s)) ++ more.
Proof.
  intros H Hl. unfold leaving in *.
  step_cases H; hsimp; try (destruct Hl; congruence).
  all: split_and!; auto; try congruence.
  all: try (by exists []; rewrite !app_nil_r).
  all: by eexists [_].
Qed.

Lemma leaving_exec sched s s' :
  exec sched s = Some s' -> leaving (worker s) ->
  leaving (worker s') /\
  (worker s = WExited -> worker s' = WExited) /\
  started Bg (history (object s')) = started Bg (history (object s)) /\
  exists more,
    _bgTasks (object s') = _bgTasks (object s) ++ more /\
    submitted Bg (history (object s')) = submitted Bg (history (object s)) ++ more.
Proof.
  revert s. induction sched as [|l sched IH]; intros s H Hl; simpl in H.
  - simplify_eq. split_and!; auto. exists []. by rewrite !app_nil_r.
  - destruct (step l s) as [s1|] eqn:E; [|done].
    destruct (leaving_step _ _ _ E Hl) as (Hl1 & Hx1 & Hs1 & more1 & Hq1 & Hsub1).
    destruct (IH _ H Hl1) as (Hl2 & Hx2 & Hs2 & more2 & Hq2 & Hsub2).
    split_and!; auto; [congruence|].
    exists (more1 ++ more2). rewrite Hq2, Hq1, Hsub2, Hsub1, !app_assoc. done.
Qed.

(** *** The main queue after [dequeueMain] has popped an empty function *)


Ltac lookups f :=
  repeat match goal with
  | H : clients ?s !! ?i = Some ?c |- _ =>
      lazymatch goal with
      | _ : f (TC c) <= sum_list_with (f ∘ TC) (clients s) |- _ => fail
      | _ => pose proof (sum_list_with_lookup (f ∘ TC) _ _ _ H : f (TC c) <= _)
      end
  end.

Lemma stuck_step l s s' :
  step l s = Some s' -> stuck s ->
  stuck s' /\
  count PumpRequest (history (object s')) = count PumpRequest (history (object s)) /\
  started Main (history (object s')) = started Main (history (object s)) /\
  exists more,
    _mainTasks (object s') = _mainTasks (object s) ++ more /\
    submitted Main (history (object s'))
    = submitted Main (history (object s)) ++ more.
Proof.
  intros H [Hf Hd]. unfold stuck, dispatches, tsum in *.
  step_cases H; hsimp; try congruence; try lia.
  all: lookups at_pump; simpl in *; try lia.
  all: split_and!; auto; try congruence; try lia.
  all: try (sums; simpl in *; lia).
  all: try (by exists []; rewrite !app_nil_r).
  all: try (by eexists [_]).
Qed.

Lemma stuck_exec sched s s' :
  exec sched s = Some s' -> stuck s ->
  stuck s' /\
  count PumpRequest (history (object s')) = count PumpRequest (history (object s)) /\
  started Main (history (object s')) = started Main (history (object s)) /\
  exists more,
    _mainTasks (object s') = _mainTasks (object s) ++ more /\
    submitted Main (history (object s'))
    = submitted Main (history (object s)) ++ more.
Proof.
  revert s. induction sched as [|l sched IH]; intros s H Hl; simpl in H.
  - simplify_eq. split_and!; auto. exists []. by rewrite !app_nil_r.
  - destruct (step l s) as [s1|] eqn:E; [|done].
    destruct (stuck_step _ _ _ E Hl) as (Hl1 & Hp1 & Hs1 & more1 & Hq1 & Hsub1).
    destruct (IH _ H Hl1) as (Hl2 & Hp2 & Hs2 & more2 & Hq2 & Hsub2).
    split_and!; auto; try congruence.
    exists (more1 ++ more2). rewrite Hq2, Hq1, Hsub2, Hsub1, !app_assoc. done.
Qed.

(** Popping an empty function leaves the main queue stuck. *)
Lemma pop_empty_function_stuck s rest :
  main_inv s -> released (object s) = false ->
  mainThread s = MTest -> _mainTasks (object s) = None :: rest ->
  exists s1,
    step (Run MainCtx) s = Some s1 /\ stuck s1 /\
    mainThread s1 = MLoop None /\ _mainTasks (object s1) = rest /\
    count PumpRequest (history (object s1)) = count PumpRequest (history (object s)) /\
    started Main (history (object s1)) = started Main (history (object s)) /\
    submitted Main (history (object s1)) = submitted Main (history (object s)).
Proof.
  intros IM Hr Hm Hq. pose proof (m_le s IM) as Hle.
  unfold step. rewrite Hr, Hm. simpl. rewrite Hq. eexists. split; [done|].
  unfold stuck, dispatches, tsum in *. rewrite Hm in Hle. simpl in *.
  destruct (_scheduledToRunOnMain (object s)); simpl in *; [|lia].
  split_and!; try done. lia.
Qed.

(** *** [runMainTasks] on an empty queue *)

Lemma runMainTasks_empty s n :
  released (object s) = false -> mainThread s = MIdle ->
  pumpRequests (object s) = S n ->
  _mainMutex (object s) = None -> _mainTasks (object s) = [] ->
  exec [Run MainCtx; Run MainCtx; Run MainCtx; Run MainCtx] s
  = Some (mkState
            (emit DrainReturn
               (emit (Empty Main)
                  (set_scheduledToRunOnMain false
                     (emit DrainEnter (set_pumpRequests n (object s))))))
            (worker s) MIdle (clients s)).
Proof.
  destruct s as [[] w m cl]. simpl. intros -> -> -> -> ->. reflexivity.
Qed.

(** *** A run of submissions to the main queue by one caller *)

Lemma client_runOnMain s i f k :
  released (object s) = false -> _mainMutex (object s) = None ->
  clients s !! i = Some (CNext (Call (RunOnMain f) :: k)) ->
  exists n s',
    exec (replicate n (Run (Client i))) s = Some s' /\
    clients s' = <[i := CNext k]> (clients s) /\
    worker s' = worker s /\ mainThread s' = mainThread s /\
    released (object s') = false /\ _mainMutex (object s') = None /\
    _mainTasks (object s') = _mainTasks (object s) ++ [f] /\
    _scheduledToRunOnMain (object s') = true /\
    count PumpRequest (history (object s'))
    = count PumpRequest (history (object s))
      + (if _scheduledToRunOnMain (object s) then 0 else 1).
Proof.
  intros Hr Hm Hc. pose proof (lookup_lt_Some _ _ _ Hc) as Hi.
  destruct (_scheduledToRunOnMain (object s)) eqn:Hf.
  - exists 2. eexists. split.
    { simpl. unfold step at 1. rewrite Hr, Hc. simpl.
      unfold lock_mainMutex. rewrite Hm. unfold step. simpl. rewrite Hr.
      rewrite list_lookup_insert_eq by done. simpl. rewrite Hf. done. }
    simpl. rewrite list_insert_insert_eq. split_and!; done.
  - exists 3. eexists. split.
    { simpl. unfold step at 1. rewrite Hr, Hc. simpl.
      unfold lock_mainMutex. rewrite Hm. unfold step at 1. simpl. rewrite Hr.
      rewrite list_lookup_insert_eq by done. simpl. rewrite Hf.
      unfold step. simpl. rewrite Hr.
      rewrite list_lookup_insert_eq by (by rewrite length_insert). simpl. done. }
    simpl. rewrite !list_insert_insert_eq. split_and!; try done; lia.
Qed.


(** [N] submissions in a row by one caller, with nothing in between:
    one pump request if the flag was clear, none if it was set. *)
Lemma client_runOnMain_all fs : forall s i k,
  released (object s) = false -> _mainMutex (object s) = None ->
  clients s !! i = Some (CNext (runOnMain_all fs ++ k)) ->
  exists n s',
    exec (replicate n (Run (Client i))) s = Some s' /\
    clients s' !! i = Some (CNext k) /\
    _mainTasks (object s') = _mainTasks (object s) ++ fs /\
    count PumpRequest (history (object s'))
    = count PumpRequest (history (object s))
      + (if _scheduledToRunOnMain (object s) then 0
         else match fs with [] => 0 | _ => 1 end).
Proof.
  induction fs as [|f fs IH]; intros s i k Hr Hm Hc; simpl in *.
  - exists 0, s. simpl. rewrite app_nil_r. split_and!; try done.
    destruct (_scheduledToRunOnMain (object s)); lia.
  - destruct (client_runOnMain s i f _ Hr Hm Hc)
      as (n1 & s1 & He1 & Hc1 & _ & _ & Hr1 & Hm1 & Hq1 & Hf1 & Hp1).
    destruct (IH s1 i k Hr1 Hm1) as (n2 & s2 & He2 & Hc2 & Hq2 & Hp2).
    { rewrite Hc1. apply list_lookup_insert_eq. by eapply lookup_lt_Some. }
    exists (n1 + n2), s2. rewrite replicate_add, exec_app, He1. simpl.
    split_and!; try done.
    + by rewrite Hq2, Hq1, <- app_assoc.
    + rewrite Hp2, Hp1, Hf1. lia.
Qed.

(** ** What reachable states have in common *)

Lemma step_history l s s' :
  step l s = Some s' ->
  exists new, history (object s') = new ++ history (object s).
Proof.
  intros H. step_cases H; simpl.
  all: first [ by exists [] | by eexists [_] | by eexists [_; _] ].
Qed.

Lemma exec_history sched s s' :
  exec sched s = Some s' ->
  exists new, history (object s') = new ++ history (object s).
Proof.
  revert s. induction sched as [|l sched IH]; intros s H; simpl in H.
  - simplify_eq. by exists [].
  - destruct (step l s) as [s1|] eqn:E; [|done].
    destruct (step_history _ _ _ E) as [new1 H1].
    destruct (IH _ H) as [new2 H2].
    exists (new2 ++ new1). by rewrite H2, H1, app_assoc.
Qed.

Lemma exec_sel {A} (pick : event -> option A) sched s s' :
  exec sched s = Some s' ->
  sel pick (history (object s)) `prefix_of` sel pick (history (object s')).
Proof.
  intros H. destruct (exec_history _ _ _ H) as [new ->].
  rewrite sel_app. by apply prefix_app_r.
Qed.

Lemma inevitably_intro s (Q : state -> Prop) :
  (forall sched s', exec sched s = Some s' -> terminal s' -> Q s') ->
  inevitably s Q.
Proof.
  intros HQ. split_and!; [|  |done].
  - intros sched s' Hs He. pose proof (exec_measure _ _ _ Hs He). lia.
  - destruct (run_terminal (measure s) s) as (He & Ht & _); [done|]. eauto.
Qed.

Lemma inv_continue progs sched s sched' s' :
  exec sched (createApp progs) = Some s -> exec sched' s = Some s' -> inv s'.
Proof. intros H H'. eapply inv_exec; [|done]. by eapply inv_reachable. Qed.

Lemma not_elem_of_prefix {A} (x : A) l1 l2 :
  l1 `prefix_of` l2 -> x ∉ l2 -> x ∉ l1.
Proof. intros [k ->] H Hx. apply H, elem_of_app. by left. Qed.

Lemma bg_dequeued_submitted s :
  bg_inv s -> None ∉ submitted Bg (history (object s)) ->
  None ∉ dequeued Bg (history (object s)).
Proof.
  intros IB. apply not_elem_of_prefix. rewrite (bg_fifo s IB). by apply prefix_app_r.
Qed.

Lemma main_dequeued_submitted s :
  main_inv s -> None ∉ submitted Main (history (object s)) ->
  None ∉ dequeued Main (history (object s)).
Proof.
  intros IM. apply not_elem_of_prefix. rewrite (m_fifo s IM). by apply prefix_app_r.
Qed.

(** In order and at most once: what has been started is an initial part
    of what has been submitted. *)
Lemma bg_started_prefix s :
  bg_inv s -> None ∉ dequeued Bg (history (object s)) ->
  (Some <$> started Bg (history (object s)))
    `prefix_of` submitted Bg (history (object s)).
Proof.
  intros IB Hn. rewrite (bg_fifo s IB), (bg_deq s IB Hn), <- app_assoc.
  by apply prefix_app_r.
Qed.

Lemma main_started_prefix s :
  main_inv s -> None ∉ dequeued Main (history (object s)) ->
  (Some <$> started Main (history (object s)))
    `prefix_of` submitted Main (history (object s)).
Proof.
  intros IM Hn. rewrite (m_fifo s IM), (m_deq s IM Hn), <- app_assoc.
  by apply prefix_app_r.
Qed.

Lemma fmap_Some_prefix {A} (l1 l2 : list A) :
  (Some <$> l1) `prefix_of` (Some <$> l2) -> l1 `prefix_of` l2.
Proof.
  revert l2. induction l1 as [|x l1 IH]; intros l2 H; [apply prefix_nil|].
  destruct l2 as [|y l2]; simpl in H.
  - by apply prefix_nil_inv in H.
  - apply prefix_cons_inv_1 in H as Hxy. apply prefix_cons_inv_2 in H.
    simplify_eq. apply prefix_cons. auto.
Qed.

(** ** The properties of the specification *)

Ltac terminal_by_computation :=
  intros [| |[|?]]; reflexivity.

Lemma holds_owner s t th q :
  lock_inv s -> thread t s = Some th ->
  (owner q (object s) = Some t <-> holds th = Some q).
Proof.
  intros I Ht. rewrite (I t q). split; [|eauto].
  intros (th' & Ht' & Hh). congruence.
Qed.

Lemma released_drained s h2 h1 :
  inv s -> released (object s) = true ->
  None ∉ dequeued Bg (history (object s)) ->
  history (object s) = h2 ++ Shutdown :: h1 -> count Shutdown h1 = 0 ->
  submitted Bg h1 `prefix_of` (Some <$> finished Bg (history (object s))).
Proof.
  intros I Hr Hn Hh Hc. destruct (released_joined s I Hr) as [Hw _].
  pose proof (bg_why s (inv_bg s I)) as Hy. rewrite Hw in Hy.
  destruct (Hy Hn) as [_ Hp].
  pose proof (before_first_split Shutdown Shutdown h2 h1 eq_refl Hc) as E.
  rewrite <- Hh in E. by rewrite E in Hp.
Qed.

(** *** Callers at rest *)

Ltac blocked_cases :=
  let Hb := fresh in
  intros [[]|[]|[[|]| |[]]] Hb; simpl in Hb; done.

Lemma terminal_callers s i c :
  inv s -> terminal s -> released (object s) = false ->
  clients s !! i = Some c -> c = CNext [].
Proof.
  intros I Ht Hr Hc.
  pose proof (terminal_blocked s (Client i) (TC c) (inv_lock s I) Ht Hr) as Hb.
  simpl in Hb. rewrite Hc in Hb. specialize (Hb eq_refl).
  destruct c as [[|]| |[] k]; try done. simpl in Hb.
  pose proof (tsum_terminal at_notify s (inv_lock s I) Ht Hr) as Hn.
  pose proof (tsum_terminal at_free s (inv_lock s I) Ht Hr) as Hf.
  pose proof (tsum_terminal past_set s (inv_lock s I) Ht Hr) as Hp.
  assert (tsum past_set s <> 0) as Hp'.
  { unfold tsum. intros E.
    assert (sum_list_with (past_set ∘ TC) (clients s) = 0) as E' by lia.
    assert (1 <= sum_list_with (past_set ∘ TC) (clients s)) as Hle
      by exact (sum_list_with_lookup (past_set ∘ TC) _ _ _ Hc).
    lia. }
  pose proof (l_shutdown s (inv_life s I)) as Hsd.
  assert (_done (object s) = true) as Hd.
  { apply (bg_done s (inv_bg s I)). lia. }
  pose proof (terminal_blocked s Worker _ (inv_lock s I) Ht Hr eq_refl) as Hw.
  pose proof (bg_handle s (inv_bg s I)) as Hh.
  destruct (worker s) eqn:Ew; try done; simpl in Hw.
  - destruct (l_notify s (inv_life s I) Hw); [by right|].
    apply Hn. blocked_cases.
  - pose proof (l_joined s (inv_life s I)) as Hj.
    pose proof (l_join s (inv_life s I)) as Hj'.
    pose proof (l_released s (inv_life s I)) as Hrel. rewrite Hr in Hrel.
    rewrite Hf in Hj'; [|blocked_cases].
    destruct (_thread (object s)); try done. unfold b2n in *. lia.
Qed.

(** *** What the drains have served *)

Lemma bg_served_step l s s' :
  bg_inv s -> bg_inv s' -> bg_served s -> step l s = Some s' -> bg_served s'.
Proof.
  intros IB IB' [Hd|[Hd Hl]] H.
  - unfold bg_served, leaving in *.
    step_cases H; hsimp; rewrite ?app_nil_r, ?fmap_app, <- ?app_assoc in *;
      simpl in *; auto.
    all: try (left; congruence).
    all: try (left; by rewrite Hd).
    all: try (destruct f; [left|right]; rewrite Hd; auto).
  - right. destruct (leaving_step _ _ _ H Hl) as (Hl' & _ & Hs & more & Hq & Hsub).
    split; [|done]. rewrite Hs, <- Hd.
    pose proof (bg_fifo s IB) as F. pose proof (bg_fifo s' IB') as F'.
    rewrite Hsub, Hq, F, <- app_assoc in F'. by apply app_inv_tail in F'.
Qed.

Lemma main_served_step l s s' :
  main_inv s -> main_inv s' -> main_served s -> step l s = Some s' ->
  main_served s'.
Proof.
  intros IM IM' [Hd|[Hd Hl]] H.
  - pose proof (m_le s IM) as Hle.
    unfold main_served, stuck, dispatches, tsum in *.
    step_cases H; hsimp; rewrite ?app_nil_r, ?fmap_app, <- ?app_assoc in *;
      simpl in *; auto.
    all: try (left; congruence).
    all: try (left; by rewrite Hd).
    all: destruct f; [left; rewrite Hd; auto|right].
    all: split; [by rewrite Hd|].
    all: destruct (_scheduledToRunOnMain (object s)); simpl in *; split; try done; lia.
  - right. destruct (stuck_step _ _ _ H Hl) as (Hl' & _ & Hs & more & Hq & Hsub).
    split; [|done]. rewrite Hs, <- Hd.
    pose proof (m_fifo s IM) as F. pose proof (m_fifo s' IM') as F'.
    rewrite Hsub, Hq, F, <- app_assoc in F'. by apply app_inv_tail in F'.
Qed.

Lemma served_exec sched : forall s s',
  inv s -> bg_served s /\ main_served s -> exec sched s = Some s' ->
  bg_served s' /\ main_served s'.
Proof.
  induction sched as [|l sched IH]; intros s s' I [Hb Hm] H; simpl in H.
  - by simplify_eq.
  - destruct (step l s) as [s1|] eqn:E; [|done].
    pose proof (inv_step _ _ _ I E) as I1.
    apply (IH s1); [done| |done]. split.
    + eapply bg_served_step; [apply I|apply I1|done|done].
    + eapply main_served_step; [apply I|apply I1|done|done].
Qed.

Lemma served_reachable progs sched s :
  exec sched (createApp progs) = Some s -> bg_served s /\ main_served s.
Proof.
  apply served_exec; [apply inv_init|]. split; by left.
Qed.

(** *** The tasks in front of the first empty function *)

Lemma upto_empty_tasks ts : upto_empty (Some <$> ts) = ts.
Proof. induction ts as [|t ts IH]; csimpl; by rewrite ?IH. Qed.

Lemma upto_empty_stop ts l : upto_empty ((Some <$> ts) ++ None :: l) = ts.
Proof. induction ts as [|t ts IH]; csimpl; by rewrite ?IH. Qed.

Lemma upto_empty_prefix l1 l2 :
  l1 `prefix_of` l2 -> upto_empty l1 `prefix_of` upto_empty l2.
Proof.
  intros [k ->]. induction l1 as [|[t|] l1 IH]; simpl.
  - apply prefix_nil.
  - by apply prefix_cons.
  - apply prefix_nil.
Qed.

Lemma upto_empty_Some_prefix ts l :
  (Some <$> ts) `prefix_of` l -> ts `prefix_of` upto_empty l.
Proof.
  intros H. rewrite <- (upto_empty_tasks ts). by apply upto_empty_prefix.
Qed.

Lemma upto_empty_behind (ts : list task) (pre post : list func) :
  (Some <$> ts) `prefix_of` (pre ++ None :: post) ->
  (Some <$> ts) `prefix_of` pre.
Proof.
  revert pre. induction ts as [|t ts IH]; intros pre H; [apply prefix_nil|].
  rewrite fmap_cons in *. destruct pre as [|f pre]; simpl in H.
  - apply prefix_cons_inv_1 in H. done.
  - apply prefix_cons_inv_1 in H as Hf. subst f. apply prefix_cons.
    apply IH. by eapply prefix_cons_inv_2.
Qed.

(** *** Order, whatever was submitted *)

Lemma bg_started_submitted s :
  bg_inv s -> bg_served s ->
  (Some <$> started Bg (history (object s)))
    `prefix_of` submitted Bg (history (object s)).
Proof.
  intros IB H. rewrite (bg_fifo s IB).
  destruct H as [->|[-> _]]; rewrite <- app_assoc; apply prefix_app_r; done.
Qed.

Lemma main_started_submitted s :
  main_inv s -> main_served s ->
  (Some <$> started Main (history (object s)))
    `prefix_of` submitted Main (history (object s)).
Proof.
  intros IM H. rewrite (m_fifo s IM).
  destruct H as [->|[-> _]]; rewrite <- app_assoc; apply prefix_app_r; done.
Qed.

(** *** Nothing runs after the worker has left *)

Lemma latest_exit_split h2 h1 :
  latest Bg (h2 ++ WorkerExit :: h1) = Some WorkerExit ->
  count WorkerExit (h2 ++ WorkerExit :: h1) <= 1 ->
  started Bg (h2 ++ WorkerExit :: h1) = started Bg h1 /\
  finished Bg (h2 ++ WorkerExit :: h1) = finished Bg h1 /\
  dequeued Bg (h2 ++ WorkerExit :: h1) = dequeued Bg h1.
Proof.
  unfold started, finished, dequeued.
  induction h2 as [|e h2 IH]; simpl; [done|].
  intros Hl Hc.
  destruct e as [[] ?|[] ?|[]|[] ?|[] ?| | | | | | | |]; simpl in *; simplify_eq;
    try (destruct (IH Hl Hc) as (-> & -> & ->); done).
  rewrite count_app in Hc. simpl in Hc. lia.
Qed.

Lemma after_exit s h2 h1 :
  inv s -> history (object s) = h2 ++ WorkerExit :: h1 ->
  started Bg (history (object s)) = started Bg h1 /\
  finished Bg (history (object s)) = finished Bg h1 /\
  dequeued Bg (history (object s)) = dequeued Bg h1.
Proof.
  intros I Hh. pose proof (l_exit s (inv_life s I)) as Hx.
  pose proof (bg_handle s (inv_bg s I)) as Hb.
  assert (count WorkerExit (history (object s)) <> 0) as Hc.
  { rewrite Hh, count_app. simpl. lia. }
  assert (worker s = WExited) as Hw.
  { destruct (worker s); try done; rewrite Hb in Hx; done. }
  pose proof (bg_exited s (inv_bg s I) Hw) as Hl.
  rewrite Hh in *. apply latest_exit_split; [done|].
  destruct (_thread (object s)); lia.
Qed.

(** *** At rest *)

Lemma shutdown_released s :
  inv s -> terminal s -> count Shutdown (history (object s)) <> 0 ->
  released (object s) = true.
Proof.
  intros I Ht Hs. destruct (released (object s)) eqn:Hr; [done|].
  exfalso. apply Hs.
  rewrite (l_shutdown s (inv_life s I)), (l_released s (inv_life s I)), Hr.
  destruct (decide (tsum past_set s = 0)) as [->|Hne]; [done|].
  apply tsum_pos in Hne as (t & th & Hth & Hne).
  destruct t as [| |i]; simpl in Hth; simplify_eq; try done.
  destruct (clients s !! i) as [c|] eqn:Hc; simplify_eq/=.
  by rewrite (terminal_callers s i c I Ht Hr Hc) in Hne.
Qed.

Lemma rest_bg s :
  inv s -> bg_served s -> terminal s -> released (object s) = false ->
  finished Bg (history (object s))
  = upto_empty (submitted Bg (history (object s))).
Proof.
  intros I Hb Ht Hr. pose proof (inv_bg s I) as IB.
  pose proof (bg_run s IB) as Hrun. rewrite (bg_fifo s IB).
  pose proof (terminal_blocked s Worker _ (inv_lock s I) Ht Hr eq_refl) as Hw.
  destruct Hb as [Hd|[Hd Hl]].
  - assert (None ∉ dequeued Bg (history (object s))) as Hn.
    { rewrite Hd. intros [(? & ? & ?)%list_elem_of_fmap|Hp]%elem_of_app; [done|].
      destruct (worker s) as [| | |[]| |]; simpl in Hp;
        by repeat (apply elem_of_cons in Hp as [|Hp]; [done|]);
          apply elem_of_nil in Hp. }
    destruct (terminal_bg s I Ht Hr Hn) as (_ & Hq & _ & Hall).
    rewrite <- (bg_fifo s IB), Hall. by rewrite upto_empty_tasks.
  - rewrite Hd, <- app_assoc. simpl. rewrite upto_empty_stop.
    destruct Hl as [Hl|Hl]; rewrite Hl in *; simpl in *; [done|].
    by rewrite app_nil_r in Hrun.
Qed.

Lemma rest_main s :
  inv s -> main_served s -> terminal s -> released (object s) = false ->
  finished Main (history (object s))
  = upto_empty (submitted Main (history (object s))).
Proof.
  intros I Hb Ht Hr. pose proof (inv_main s I) as IM.
  pose proof (m_run s IM) as Hrun. rewrite (m_fifo s IM).
  pose proof (terminal_blocked s MainCtx _ (inv_lock s I) Ht Hr eq_refl) as Hw.
  assert (mainThread s = MIdle) as Hm by (by destruct (mainThread s)).
  unfold main_served in Hb. rewrite Hm in *. simpl in Hrun. rewrite app_nil_r in Hrun.
  destruct Hb as [Hd|[Hd Hl]].
  - assert (None ∉ dequeued Main (history (object s))) as Hn.
    { rewrite Hd.
      intros [(? & ? & ?)%list_elem_of_fmap|Hp]%elem_of_app; [done|].
      unfold pending_m in Hp. by apply elem_of_nil in Hp. }
    destruct (terminal_main s I Ht Hr Hn) as (_ & _ & _ & _ & Hall).
    rewrite <- (m_fifo s IM), Hall. by rewrite upto_empty_tasks.
  - rewrite Hd, <- app_assoc. simpl. by rewrite upto_empty_stop.
Qed.

Lemma released_served s h2 h1 :
  inv s -> bg_served s -> released (object s) = true ->
  history (object s) = h2 ++ Shutdown :: h1 -> count Shutdown h1 = 0 ->
  upto_empty (submitted Bg h1) `prefix_of` finished Bg (history (object s)).
Proof.
  intros I Hb Hr Hh Hc. pose proof (inv_bg s I) as IB.
  destruct (released_joined s I Hr) as [Hw _].
  pose proof (bg_run s IB) as Hrun. rewrite Hw in Hrun. simpl in Hrun.
  rewrite app_nil_r in Hrun.
  destruct Hb as [Hd|[Hd _]].
  - rewrite Hw in Hd. simpl in Hd. rewrite app_nil_r in Hd.
    assert (None ∉ dequeued Bg (history (object s))) as Hn.
    { rewrite Hd. by intros (? & ? & ?)%list_elem_of_fmap. }
    rewrite <- (upto_empty_tasks (finished Bg (history (object s)))).
    apply upto_empty_prefix. by eapply released_drained.
  - assert (finished Bg (history (object s))
            = upto_empty (submitted Bg (history (object s)))) as ->.
    { rewrite (bg_fifo s IB), Hd, <- app_assoc. simpl.
      by rewrite upto_empty_stop, Hrun. }
    apply upto_empty_prefix. rewrite Hh. unfold submitted.
    rewrite sel_app. simpl. by apply prefix_app_r.
Qed.

(** *** One caller, uninterrupted *)

Lemma client_runOnBgThread s i f k :
  released (object s) = false -> _mutex (object s) = None ->
  clients s !! i = Some (CNext (Call (RunOnBgThread f) :: k)) ->
  exists s',
    exec (replicate 3 (Run (Client i))) s = Some s' /\
    clients s' = <[i := CNext k]> (clients s) /\
    released (object s') = false /\ _mutex (object s') = None /\
    _bgTasks (object s') = _bgTasks (object s) ++ [f] /\
    submitted Bg (history (object s'))
    = submitted Bg (history (object s)) ++ [f].
Proof.
  intros Hr Hm Hc. eexists. split.
  - simpl. unfold step at 1. rewrite Hr, Hc. simpl. unfold lock_mutex. rewrite Hm.
    simpl. unfold step at 1. simpl. rewrite Hr.
    rewrite list_lookup_insert_eq by (by eapply lookup_lt_Some). simpl.
    unfold step at 1. simpl. rewrite Hr.
    rewrite list_lookup_insert_eq
      by (rewrite length_insert; by eapply lookup_lt_Some).
    simpl. reflexivity.
  - simpl. rewrite !list_insert_insert_eq. split_and!; done.
Qed.

Lemma client_runOnBgThread_all fs : forall s i k,
  released (object s) = false -> _mutex (object s) = None ->
  clients s !! i = Some (CNext (runOnBgThread_all fs ++ k)) ->
  exists s',
    exec (replicate (3 * length fs) (Run (Client i))) s = Some s' /\
    clients s' !! i = Some (CNext k) /\
    _bgTasks (object s') = _bgTasks (object s) ++ fs /\
    submitted Bg (history (object s'))
    = submitted Bg (history (object s)) ++ fs.
Proof.
  induction fs as [|f fs IH]; intros s i k Hr Hm Hc; simpl in Hc.
  - exists s. by rewrite !app_nil_r.
  - replace (3 * length (f :: fs)) with (3 + 3 * length fs) by (simpl; lia).
    destruct (client_runOnBgThread s i f _ Hr Hm Hc)
      as (s1 & He1 & Hc1 & Hr1 & Hm1 & Hq1 & Hs1).
    destruct (IH s1 i k Hr1 Hm1) as (s2 & He2 & Hc2 & Hq2 & Hs2).
    { rewrite Hc1. apply list_lookup_insert_eq. by eapply lookup_lt_Some. }
    exists s2. rewrite replicate_add, exec_app, He1. split_and!; try done.
    + by rewrite Hq2, Hq1, <- app_assoc.
    + by rewrite Hs2, Hs1, <- app_assoc.
Qed.

(** *** Once stuck, the main thread stays idle *)

Lemma stuck_idle_step l s s' :
  stuck s -> mainThread s = MIdle -> step l s = Some s' -> mainThread s' = MIdle.
Proof.
  intros [_ Hd] Hm H. unfold dispatches in Hd. unfold step in H.
  destruct (released (object s)); [done|].
  destruct l as [[| |i]|]; repeat case_match; simplify_eq/=; try done.
  rewrite Hm in *. simpl in *. repeat case_match; simplify_eq/=; lia.
Qed.

Lemma stuck_idle_exec sched : forall s s',
  stuck s -> mainThread s = MIdle -> exec sched s = Some s' ->
  mainThread s' = MIdle.
Proof.
  induction sched as [|l sched IH]; intros s s' Hs Hm H; simpl in H.
  - by simplify_eq.
  - destruct (step l s) as [s1|] eqn:E; [|done].
    apply (IH s1); [|by eapply stuck_idle_step|done].
    by destruct (stuck_step _ _ _ E Hs).
Qed.

(** C1 (debounce of pump requests), in the form that holds.

    In every reachable state:
    - every clear-to-set transition of [_scheduledToRunOnMain] is followed by
      exactly one pump request (the ones not yet issued belong to callers
      standing between the critical section and [MAIN_THREAD_ASYNC_EM_ASM]),
      and the flag is set exactly when one more transition than
      empty-queue observations has happened;
    - a caller that runs a sequence of [runOnMain] calls without being
      interrupted appends all its functions to [_mainTasks] and issues one
      pump request if the flag was clear and the sequence is not empty, and
      none if the flag was set;
    - when an invocation of [runMainTasks] has returned and no empty
      function had been dequeued, the last thing it did was to observe the
      queue empty, and at such an observation every function submitted
      until then has run to its end, provided none of them was empty;
    - every execution is finite, and when nothing can move any more the
      main thread is idle and every function submitted to the main queue
      has run, provided the object was not destroyed and no empty function
      was submitted to the main queue.

    The provisos are needed, as the run after the theorem shows. *)
Theorem main_debounce progs sched s :
  exec sched (createApp progs) = Some s ->
  count Scheduled (history (object s))
  = count PumpRequest (history (object s)) + tsum at_pump s /\
  count Scheduled (history (object s))
  = count (Empty Main) (history (object s))
    + b2n (_scheduledToRunOnMain (object s)) /\
  (forall i fs k,
     released (object s) = false -> _mainMutex (object s) = None ->
     clients s !! i = Some (CNext (runOnMain_all fs ++ k)) ->
     exists n s',
       exec (replicate n (Run (Client i))) s = Some s' /\
       clients s' !! i = Some (CNext k) /\
       _mainTasks (object s') = _mainTasks (object s) ++ fs /\
       count PumpRequest (history (object s'))
       = count PumpRequest (history (object s))
         + (if _scheduledToRunOnMain (object s) then 0
            else match fs with [] => 0 | _ => 1 end)) /\
  (forall h2 h1,
     history (object s) = h2 ++ DrainReturn :: h1 ->
     None ∉ dequeued Main h1 -> latest Main h1 = Some (Empty Main)) /\
  (forall h2 h1,
     history (object s) = h2 ++ Empty Main :: h1 ->
     None ∉ submitted Main h1 ->
     submitted Main h1 = Some <$> finished Main h1) /\
  inevitably s (fun s' =>
    released (object s') = false ->
    None ∉ submitted Main (history (object s')) ->
    mainThread s' = MIdle /\
    submitted Main (history (object s'))
    = Some <$> finished Main (history (object s'))).
Proof.
  intros H. pose proof (inv_reachable _ _ _ H) as I.
  pose proof (inv_main s I) as IM.
  split_and!.
  - apply (m_sched s IM).
  - apply (m_toggle s IM).
  - intros i fs k Hr Hm Hc. by apply client_runOnMain_all.
  - intros h2 h1 Hh. by apply (at_each_split _ _ _ _ _ _ (m_at_return s IM) Hh).
  - intros h2 h1 Hh. by apply (at_each_split _ _ _ _ _ _ (m_at_empty s IM) Hh).
  - apply inevitably_intro. intros sched' s' He Ht Hr Hn'.
    pose proof (inv_continue _ _ _ _ _ H He) as I'.
    destruct (terminal_main s' I' Ht Hr) as (? & _ & _ & _ & ?); [|done].
    apply main_dequeued_submitted; [apply I'|done].
Qed.

Lemma main_debounce_witness :
  exec demo_sched (createApp demo_progs) = Some demo_state /\
  count Scheduled (history (object demo_state))
  = count (Empty Main) (history (object demo_state))
    + b2n (_scheduledToRunOnMain (object demo_state)).
Proof.
  split; [reflexivity|].
  exact (proj1 (proj2 (main_debounce demo_progs demo_sched demo_state eq_refl))).
Defined.

Lemma main_debounce_counterexample :
  match exec stall_sched (createApp stall_progs) with
  | Some s =>
      trace s = [Submit Main None; Scheduled; PumpRequest;
                 Submit Main (Some T1);
                 DrainEnter; Dequeue Main None; DrainReturn] /\
      _mainTasks (object s) = [Some T1] /\
      _scheduledToRunOnMain (object s) = true /\
      terminal s
  | None => False
  end.
Proof. vm_compute. split_and!; try reflexivity; terminal_by_computation. Qed.

(** C2 (FIFO order of the background queue), in the form that holds.

    In every reachable state, whatever has been submitted:
    - the tasks the worker has started are a prefix, in order, of the
      functions pushed on the background queue;
    - no task behind an empty function has been started;
    - so if the functions pushed are the tasks [ts], none of them empty,
      the tasks started are a prefix of [ts];
    - at most one started task has not finished: the one the worker is
      running;
    - a caller that runs a sequence of [runOnBgThread] calls without being
      interrupted pushes its functions in the order of its calls.

    A task of the model is a finite tree of submissions.  For such tasks
    every execution comes to rest, and where it does and the object is not
    released, the tasks that have run to their end are exactly those
    pushed before the first empty function: all of [ts], in order, if
    nothing else was pushed.  The run after the theorem shows that a task
    behind an empty function is never run. *)
Theorem background_fifo progs sched s :
  exec sched (createApp progs) = Some s ->
  (Some <$> started Bg (history (object s)))
    `prefix_of` submitted Bg (history (object s)) /\
  (forall pre post,
     submitted Bg (history (object s)) = pre ++ None :: post ->
     (Some <$> started Bg (history (object s))) `prefix_of` pre) /\
  (forall ts,
     submitted Bg (history (object s)) = Some <$> ts ->
     started Bg (history (object s)) `prefix_of` ts) /\
  started Bg (history (object s))
  = finished Bg (history (object s)) ++ current_w (worker s) /\
  (forall i fs k,
     released (object s) = false -> _mutex (object s) = None ->
     clients s !! i = Some (CNext (runOnBgThread_all fs ++ k)) ->
     exists s',
       exec (replicate (3 * length fs) (Run (Client i))) s = Some s' /\
       clients s' !! i = Some (CNext k) /\
       _bgTasks (object s') = _bgTasks (object s) ++ fs /\
       submitted Bg (history (object s'))
       = submitted Bg (history (object s)) ++ fs) /\
  inevitably s (fun s' =>
    released (object s') = false ->
    finished Bg (history (object s'))
    = upto_empty (submitted Bg (history (object s'))) /\
    (forall ts,
       submitted Bg (history (object s')) = Some <$> ts ->
       finished Bg (history (object s')) = ts)).
Proof.
  intros H. pose proof (inv_reachable _ _ _ H) as I.
  destruct (served_reachable _ _ _ H) as [Hb _].
  pose proof (bg_started_submitted s (inv_bg s I) Hb) as Hp.
  split_and!.
  - exact Hp.
  - intros pre post Hs. rewrite Hs in Hp. by eapply upto_empty_behind.
  - intros ts Hs. rewrite Hs in Hp. by apply fmap_Some_prefix.
  - apply (bg_run s (inv_bg s I)).
  - intros i fs k. apply client_runOnBgThread_all.
  - apply inevitably_intro. intros sched' s' He Ht Hr.
    pose proof (inv_continue _ _ _ _ _ H He) as I'.
    destruct (served_exec _ _ _ I (served_reachable _ _ _ H) He) as [Hb' _].
    pose proof (rest_bg s' I' Hb' Ht Hr) as Hrest.
    split; [done|]. intros ts Hs. by rewrite Hrest, Hs, upto_empty_tasks.
Qed.

Lemma background_fifo_witness :
  exec teardown_sched (createApp teardown_progs) = Some teardown_state /\
  submitted Bg (history (object teardown_state)) = Some <$> [T1; T2] /\
  started Bg (history (object teardown_state)) `prefix_of` [T1; T2].
Proof.
  split_and!; [reflexivity|reflexivity|].
  exact (proj1 (proj2 (proj2 (background_fifo teardown_progs teardown_sched
                                teardown_state eq_refl))) [T1; T2] eq_refl).
Defined.

Lemma background_fifo_counterexample :
  match exec gap_sched (createApp gap_progs) with
  | Some s =>
      trace s = [Submit Bg (Some T1); Submit Bg None; Submit Bg (Some T3);
                 Dequeue Bg (Some T1); Start Bg T1; Finish Bg T1;
                 Dequeue Bg None; WorkerExit] /\
      _bgTasks (object s) = [Some T3] /\
      released (object s) = false /\
      terminal s
  | None => False
  end.
Proof. vm_compute. split_and!; try reflexivity; terminal_by_computation. Qed.

(** C3 (shutdown drains, then the worker exits, then join), in the form
    that holds.

    In every reachable state:
    - when the worker left its loop and had not dequeued an empty function,
      its last queue operation was to observe the queue empty;
    - the worker observes the queue empty (and gets out of the wait) only
      after [_done] was set, and at that point every function submitted
      until then has run to its end, provided none of them was empty;
    - in particular the functions submitted before [_done] was set have all
      run, in FIFO order, by the time of that observation;
    - [join] returns only after the worker left its loop, and the object is
      released only after [join] returned;
    - every execution is finite, and when nothing can move any more the
      object has been released if its destructor had set [_done] and no
      empty function was submitted to the background queue.

    The provisos are needed, as the run after the theorem shows. *)
Theorem shutdown_drains progs sched s :
  exec sched (createApp progs) = Some s ->
  (forall h2 h1,
     history (object s) = h2 ++ WorkerExit :: h1 ->
     None ∉ dequeued Bg h1 -> latest Bg h1 = Some (Empty Bg)) /\
  (forall h2 h1,
     history (object s) = h2 ++ Empty Bg :: h1 ->
     count Shutdown h1 <> 0 /\
     (None ∉ submitted Bg h1 -> submitted Bg h1 = Some <$> finished Bg h1)) /\
  (forall h3 h2 h1,
     history (object s) = h3 ++ Empty Bg :: h2 ++ Shutdown :: h1 ->
     None ∉ submitted Bg (h2 ++ Shutdown :: h1) ->
     submitted Bg h1 `prefix_of` (Some <$> finished Bg (h2 ++ Shutdown :: h1))) /\
  (forall h2 h1,
     history (object s) = h2 ++ Join :: h1 -> count WorkerExit h1 <> 0) /\
  (forall h2 h1,
     history (object s) = h2 ++ Release :: h1 -> count Join h1 <> 0) /\
  inevitably s (fun s' =>
    count Shutdown (history (object s')) <> 0 ->
    None ∉ submitted Bg (history (object s')) ->
    released (object s') = true).
Proof.
  intros H. pose proof (inv_reachable _ _ _ H) as I.
  pose proof (inv_bg s I) as IB. pose proof (inv_life s I) as IL.
  split_and!.
  - intros h2 h1 Hh. by apply (at_each_split _ _ _ _ _ _ (bg_at_exit s IB) Hh).
  - intros h2 h1 Hh. by apply (at_each_split _ _ _ _ _ _ (bg_at_empty s IB) Hh).
  - intros h3 h2 h1 Hh Hn.
    destruct (at_each_split _ _ _ _ _ _ (bg_at_empty s IB) Hh eq_refl) as [_ Hall].
    rewrite <- (Hall Hn). unfold submitted. rewrite sel_app. simpl.
    by apply prefix_app_r.
  - intros h2 h1 Hh.
    by destruct (at_each_split _ _ _ _ _ _ (l_at_join s IL) Hh eq_refl).
  - intros h2 h1 Hh. by apply (at_each_split _ _ _ _ _ _ (l_at_release s IL) Hh).
  - apply inevitably_intro. intros sched' s' He Ht Hs Hn'.
    pose proof (inv_continue _ _ _ _ _ H He) as I'.
    apply terminal_released; try done.
    apply bg_dequeued_submitted; [apply I'|done].
Qed.

Lemma shutdown_drains_witness :
  exec teardown_sched (createApp teardown_progs) = Some teardown_state /\
  (forall h2 h1,
     history (object teardown_state) = h2 ++ Empty Bg :: h1 ->
     count Shutdown h1 <> 0 /\
     (None ∉ submitted Bg h1 -> submitted Bg h1 = Some <$> finished Bg h1)).
Proof.
  split; [reflexivity|].
  exact (proj1 (proj2 (shutdown_drains teardown_progs teardown_sched
                         teardown_state eq_refl))).
Defined.

Lemma shutdown_drains_counterexample :
  match exec cut_sched (createApp cut_progs) with
  | Some s =>
      trace s = [Submit Bg None; Submit Bg (Some T2); Shutdown;
                 Dequeue Bg None; WorkerExit; Join; Release] /\
      _bgTasks (object s) = [Some T2] /\
      released (object s) = true
  | None => False
  end.
Proof. vm_compute. split_and!; reflexivity. Qed.

(** C4 (the loop of [runMainTasks]), in the form that holds.

    In every reachable state:
    - [dequeueMain] tests the queue with [_mainMutex] held by the main
      thread, and the main thread does not hold it when the dequeued
      function is tested and called;
    - when an invocation has returned and no empty function had been
      dequeued, its last queue operation was to observe the queue empty
      (which is where the flag is cleared);
    - at such an observation every function submitted until then has run to
      its end, provided none of them was empty;
    - the functions that one invocation has run, from its entry to its
      observation of the empty queue, are the ones that were queued at its
      entry followed by the ones submitted during the invocation, provided
      no empty function was submitted;
    - every execution is finite, and when nothing can move any more the
      main thread is idle and every function submitted to the main queue
      has run, provided the object was not destroyed and no empty function
      was submitted to the main queue.

    The provisos are needed, as the run after the theorem shows. *)
Theorem runMainTasks_drains progs sched s :
  exec sched (createApp progs) = Some s ->
  (mainThread s = MTest -> _mainMutex (object s) = Some MainCtx) /\
  (forall f, mainThread s = MLoop f -> _mainMutex (object s) <> Some MainCtx) /\
  (forall h2 h1,
     history (object s) = h2 ++ DrainReturn :: h1 ->
     None ∉ dequeued Main h1 -> latest Main h1 = Some (Empty Main)) /\
  (forall h2 h1,
     history (object s) = h2 ++ Empty Main :: h1 ->
     None ∉ submitted Main h1 ->
     submitted Main h1 = Some <$> finished Main h1) /\
  (forall h3 h2 h1,
     history (object s) = h3 ++ Empty Main :: h2 ++ DrainEnter :: h1 ->
     None ∉ submitted Main (h2 ++ DrainEnter :: h1) ->
     exists queued,
       submitted Main h1 = dequeued Main h1 ++ queued /\
       Some <$> finished Main h2 = queued ++ submitted Main h2) /\
  inevitably s (fun s' =>
    released (object s') = false ->
    None ∉ submitted Main (history (object s')) ->
    mainThread s' = MIdle /\
    submitted Main (history (object s'))
    = Some <$> finished Main (history (object s'))).
Proof.
  intros H. pose proof (inv_reachable _ _ _ H) as I.
  pose proof (inv_main s I) as IM. pose proof (inv_lock s I) as IL.
  split_and!.
  - intros Hm. apply (holds_owner s MainCtx _ Main IL eq_refl). by rewrite Hm.
  - intros f Hm Ho.
    apply (holds_owner s MainCtx _ Main IL eq_refl) in Ho. by rewrite Hm in Ho.
  - intros h2 h1 Hh. by apply (at_each_split _ _ _ _ _ _ (m_at_return s IM) Hh).
  - intros h2 h1 Hh. by apply (at_each_split _ _ _ _ _ _ (m_at_empty s IM) Hh).
  - intros h3 h2 h1 Hh Hn.
    pose proof (at_each_split _ _ _ _ _ _ (m_at_empty s IM) Hh eq_refl Hn) as Hall.
    assert (history (object s) = (h3 ++ Empty Main :: h2) ++ DrainEnter :: h1) as Hh'
      by (by rewrite Hh, <- app_assoc).
    destruct (at_each_split _ _ _ _ _ _ (m_at_enter s IM) Hh' eq_refl)
      as (queued & Hq & Hd).
    exists queued. split; [done|].
    unfold submitted, finished in *. rewrite !sel_app in *. simpl in *.
    rewrite fmap_app in Hall. rewrite Hq, <- Hd, <- app_assoc in Hall.
    { by apply app_inv_head in Hall. }
    apply (not_elem_of_prefix _ _ _ (prefix_app_r _ _ _ (reflexivity _))) in Hn.
    rewrite Hq in Hn.
    by apply (not_elem_of_prefix _ _ _ (prefix_app_r _ _ _ (reflexivity _))) in Hn.
  - apply inevitably_intro. intros sched' s' He Ht Hr Hn'.
    pose proof (inv_continue _ _ _ _ _ H He) as I'.
    destruct (terminal_main s' I' Ht Hr) as (? & _ & _ & _ & ?); [|done].
    apply main_dequeued_submitted; [apply I'|done].
Qed.

Lemma runMainTasks_drains_witness :
  exec demo_sched (createApp demo_progs) = Some demo_state /\
  (forall h2 h1,
     history (object demo_state) = h2 ++ Empty Main :: h1 ->
     None ∉ submitted Main h1 ->
     submitted Main h1 = Some <$> finished Main h1).
Proof.
  split; [reflexivity|].
  exact (proj1 (proj2 (proj2 (proj2
           (runMainTasks_drains demo_progs demo_sched demo_state eq_refl))))).
Defined.

Lemma runMainTasks_drains_counterexample :
  match exec nest_sched (createApp nest_progs) with
  | Some s =>
      trace s = [Submit Main (Some T12); Scheduled; PumpRequest;
                 DrainEnter; Dequeue Main (Some T12); Start Main T12;
                 Submit Main None; Submit Main (Some T2); Finish Main T12;
                 Dequeue Main None; DrainReturn] /\
      _mainTasks (object s) = [Some T2] /\
      _scheduledToRunOnMain (object s) = true /\
      terminal s
  | None => False
  end.
Proof. vm_compute. split_and!; try reflexivity; terminal_by_computation. Qed.

(** C5 (every task runs exactly once), in the form that holds.

    In every reachable state, whatever has been submitted:
    - on each queue the tasks started are a prefix, in order, of the
      functions pushed on it: nothing runs twice, nothing runs that was
      not submitted, nothing runs behind an empty function;
    - on each queue at most one started task has not finished: the one its
      thread is running;
    - no background task is started after the worker has left its loop, so
      what is pushed after that is not run;
    - once the object is released, the tasks pushed on the background
      queue before [_done] was set, up to the first empty function, have
      all run to their end.

    For the finite tasks of the model every execution comes to rest, and
    where it does: the object is released if a destructor had set
    [_done]; and if the object is not released, the tasks that have run to
    their end on each queue are exactly those pushed on it before its
    first empty function.

    Nothing is promised for the main queue once the object is destroyed:
    see the run after the theorem. *)
Theorem exactly_once progs sched s :
  exec sched (createApp progs) = Some s ->
  (Some <$> started Bg (history (object s)))
    `prefix_of` submitted Bg (history (object s)) /\
  (Some <$> started Main (history (object s)))
    `prefix_of` submitted Main (history (object s)) /\
  started Bg (history (object s))
  = finished Bg (history (object s)) ++ current_w (worker s) /\
  started Main (history (object s))
  = finished Main (history (object s)) ++ current_m (mainThread s) /\
  (forall h2 h1,
     history (object s) = h2 ++ WorkerExit :: h1 ->
     started Bg (history (object s)) = started Bg h1) /\
  (forall h2 h1,
     released (object s) = true ->
     history (object s) = h2 ++ Shutdown :: h1 -> count Shutdown h1 = 0 ->
     upto_empty (submitted Bg h1) `prefix_of` finished Bg (history (object s))) /\
  (forall h2 h1,
     released (object s) = true ->
     None ∉ dequeued Bg (history (object s)) ->
     history (object s) = h2 ++ Shutdown :: h1 -> count Shutdown h1 = 0 ->
     submitted Bg h1 `prefix_of` (Some <$> finished Bg (history (object s)))) /\
  inevitably s (fun s' =>
    (count Shutdown (history (object s')) <> 0 ->
     released (object s') = true) /\
    (released (object s') = false ->
     finished Bg (history (object s'))
     = upto_empty (submitted Bg (history (object s'))) /\
     finished Main (history (object s'))
     = upto_empty (submitted Main (history (object s'))))).
Proof.
  intros H. pose proof (inv_reachable _ _ _ H) as I.
  destruct (served_reachable _ _ _ H) as [Hb Hm].
  split_and!.
  - by apply bg_started_submitted; [apply I|].
  - by apply main_started_submitted; [apply I|].
  - apply (bg_run s (inv_bg s I)).
  - apply (m_run s (inv_main s I)).
  - intros h2 h1 Hh. by destruct (after_exit s h2 h1 I Hh).
  - intros h2 h1 Hr Hh Hc. by eapply released_served.
  - intros h2 h1 Hr Hn Hh Hc. by eapply released_drained.
  - apply inevitably_intro. intros sched' s' He Ht.
    pose proof (inv_continue _ _ _ _ _ H He) as I'.
    destruct (served_exec _ _ _ I (served_reachable _ _ _ H) He) as [Hb' Hm'].
    split; [by apply shutdown_released|]. intros Hr. split.
    + by apply rest_bg.
    + by apply rest_main.
Qed.

Lemma exactly_once_witness :
  exec teardown_sched (createApp teardown_progs) = Some teardown_state /\
  started Bg (history (object teardown_state))
  = finished Bg (history (object teardown_state))
    ++ current_w (worker teardown_state).
Proof.
  split; [reflexivity|].
  exact (proj1 (proj2 (proj2
           (exactly_once teardown_progs teardown_sched teardown_state eq_refl)))).
Defined.

Lemma exactly_once_counterexample :
  match exec early_sched (createApp early_progs) with
  | Some s =>
      trace s = [Submit Main (Some T1); Scheduled; PumpRequest; Shutdown;
                 Empty Bg; WorkerExit; Join; Release] /\
      _mainTasks (object s) = [Some T1] /\
      pumpRequests (object s) = 1 /\
      released (object s) = true /\
      terminal s /\
      dangling MainCtx s
  | None => False
  end.
Proof.
  vm_compute. split_and!; try reflexivity; try terminal_by_computation.
  eexists. split; [reflexivity|]. discriminate.
Qed.

(** C6 (lock discipline).

    In every reachable state:
    - a mutex is owned by a thread exactly when that thread stands at a
      program point inside the matching critical section;
    - no thread owns [_mutex] and [_mainMutex] at the same time;
    - while the worker tests or calls the function it has dequeued, it owns
      neither mutex, except inside the critical section of a [runOnBgThread]
      or [runOnMain] call made by the task's body, where it owns exactly the
      mutex of the queue it appends to, acquired by that call;
    - the same for the main thread in [runMainTasks]. *)
Theorem lock_discipline progs sched s :
  exec sched (createApp progs) = Some s ->
  (forall t q, owner q (object s) = Some t <->
               exists th, thread t s = Some th /\ holds th = Some q) /\
  (forall t, ~ (_mutex (object s) = Some t /\ _mainMutex (object s) = Some t)) /\
  (forall q,
     match worker s with
     | WLoop _ | WTask _ (Between _) => owner q (object s) <> Some Worker
     | WTask _ (Inside p _) =>
         owner q (object s) = Some Worker <-> pc_holds p = Some q
     | _ => True
     end) /\
  (forall q,
     match mainThread s with
     | MLoop _ | MTask _ (Between _) => owner q (object s) <> Some MainCtx
     | MTask _ (Inside p _) =>
         owner q (object s) = Some MainCtx <-> pc_holds p = Some q
     | _ => True
     end).
Proof.
  intros H. pose proof (inv_lock s (inv_reachable _ _ _ H)) as I.
  split_and!.
  - exact I.
  - intros t [Hb Hm].
    apply (I t Bg) in Hb as (th & Ht & Hb).
    apply (I t Main) in Hm as (th' & Ht' & Hm). congruence.
  - intros q. pose proof (holds_owner s Worker _ q I eq_refl) as Hw.
    destruct (worker s) as [| | |?|? []|]; simpl in Hw; try done.
    all: rewrite Hw; done.
  - intros q. pose proof (holds_owner s MainCtx _ q I eq_refl) as Hm.
    destruct (mainThread s) as [| | |?|? []]; simpl in Hm; try done.
    all: rewrite Hm; done.
Qed.

Lemma lock_discipline_witness :
  exec demo_sched (createApp demo_progs) = Some demo_state /\
  (forall t, ~ (_mutex (object demo_state) = Some t /\
                _mainMutex (object demo_state) = Some t)).
Proof.
  split; [reflexivity|].
  exact (proj1 (proj2 (lock_discipline demo_progs demo_sched demo_state eq_refl))).
Defined.

(** C7 (the destructor joins the worker before the object is released),
    in the form that holds.

    In every reachable state:
    - a destructor standing at [_thread.join()] cannot move before the
      worker has left its loop;
    - [join] has returned only after the worker left its loop, and the
      object has been released only after [join] returned; so in a released
      state the worker has exited and is joined;
    - the worker has nothing left to do on a released object, and no
      background task starts, or is still running, after the worker has
      left its loop: no background task runs against freed state;
    - when the worker left its loop and had not popped an empty function,
      its last queue operation was to observe the queue empty;
    - once the object is released, the tasks pushed on the background queue
      before [_done] was set, up to the first empty function, have all run
      to their end.

    For the finite tasks of the model every execution comes to rest, and
    the object is then released if a destructor had set [_done].

    The runs after the theorem show what does not hold: a task behind an
    empty function is dropped, and the main thread is not waited for, so a
    main task can be in the middle of its body, about to call the
    scheduler, when the object is released. *)
Theorem destructor_joins progs sched s :
  exec sched (createApp progs) = Some s ->
  (forall i k,
     clients s !! i = Some (CDtor DtorJoin k) ->
     _thread (object s) <> Finished -> step (Run (Client i)) s = None) /\
  (forall h2 h1,
     history (object s) = h2 ++ Join :: h1 -> count WorkerExit h1 <> 0) /\
  (forall h2 h1,
     history (object s) = h2 ++ Release :: h1 -> count Join h1 <> 0) /\
  (released (object s) = true ->
   worker s = WExited /\ _thread (object s) = Joined) /\
  ~ dangling Worker s /\
  (forall h2 h1,
     history (object s) = h2 ++ WorkerExit :: h1 ->
     started Bg (history (object s)) = started Bg h1 /\
     finished Bg (history (object s)) = finished Bg h1 /\
     started Bg h1 = finished Bg h1) /\
  (forall h2 h1,
     history (object s) = h2 ++ WorkerExit :: h1 ->
     None ∉ dequeued Bg h1 -> latest Bg h1 = Some (Empty Bg)) /\
  (forall h2 h1,
     released (object s) = true ->
     history (object s) = h2 ++ Shutdown :: h1 -> count Shutdown h1 = 0 ->
     upto_empty (submitted Bg h1) `prefix_of` finished Bg (history (object s))) /\
  (forall h2 h1,
     released (object s) = true ->
     None ∉ dequeued Bg (history (object s)) ->
     history (object s) = h2 ++ Shutdown :: h1 -> count Shutdown h1 = 0 ->
     submitted Bg h1 `prefix_of` (Some <$> finished Bg (history (object s)))) /\
  inevitably s (fun s' =>
    count Shutdown (history (object s')) <> 0 ->
    released (object s') = true).
Proof.
  intros H. pose proof (inv_reachable _ _ _ H) as I.
  pose proof (inv_bg s I) as IB. pose proof (inv_life s I) as IL.
  destruct (served_reachable _ _ _ H) as [Hb _].
  split_and!.
  - intros i k Hc Hf. unfold step. destruct (released (object s)); [done|].
    rewrite Hc. simpl. by destruct (_thread (object s)).
  - intros h2 h1 Hh.
    by destruct (at_each_split _ _ _ _ _ _ (l_at_join s IL) Hh eq_refl).
  - intros h2 h1 Hh. by apply (at_each_split _ _ _ _ _ _ (l_at_release s IL) Hh).
  - by apply released_joined.
  - intros (Hr & th & Hth & Hs). simpl in Hth. simplify_eq.
    destruct (released_joined s I Hr) as [Hw _]. rewrite Hw in Hs. done.
  - intros h2 h1 Hh. destruct (after_exit s h2 h1 I Hh) as (Hs & Hf & _).
    split_and!; try done.
    pose proof (bg_run s IB) as Hrun. rewrite Hs, Hf in Hrun.
    assert (worker s = WExited) as Hw.
    { pose proof (l_exit s IL) as Hx. pose proof (bg_handle s IB) as Hh'.
      assert (count WorkerExit (history (object s)) <> 0) as Hc.
      { rewrite Hh, count_app. simpl. lia. }
      destruct (worker s); try done; rewrite Hh' in Hx; done. }
    rewrite Hw in Hrun. simpl in Hrun. by rewrite app_nil_r in Hrun.
  - intros h2 h1 Hh. by apply (at_each_split _ _ _ _ _ _ (bg_at_exit s IB) Hh).
  - intros h2 h1 Hr Hh Hc. by eapply released_served.
  - intros h2 h1 Hr Hn Hh Hc. by eapply released_drained.
  - apply inevitably_intro. intros sched' s' He Ht Hs.
    pose proof (inv_continue _ _ _ _ _ H He) as I'.
    by apply shutdown_released.
Qed.

Lemma destructor_joins_witness :
  exec teardown_sched (createApp teardown_progs) = Some teardown_state /\
  (released (object teardown_state) = true ->
   worker teardown_state = WExited /\ _thread (object teardown_state) = Joined).
Proof.
  split; [reflexivity|].
  exact (proj1 (proj2 (proj2 (proj2
           (destructor_joins teardown_progs teardown_sched teardown_state
              eq_refl))))).
Defined.

Lemma destructor_joins_counterexample :
  match exec drop_sched (createApp drop_progs) with
  | Some s =>
      trace s = [Submit Bg (Some T1); Submit Bg None; Submit Bg (Some T3);
                 Shutdown; Dequeue Bg (Some T1); Start Bg T1; Finish Bg T1;
                 Dequeue Bg None; WorkerExit; Join; Release] /\
      _bgTasks (object s) = [Some T3] /\
      released (object s) = true
  | None => False
  end /\
  match exec late_sched (createApp late_progs) with
  | Some s =>
      trace s = [Submit Main (Some T7); Scheduled; PumpRequest; DrainEnter;
                 Dequeue Main (Some T7); Start Main T7; Shutdown;
                 Empty Bg; WorkerExit; Join; Release] /\
      released (object s) = true /\
      mainThread s = MTask T7 (Between [RunOnBgThread (Some T1)]) /\
      dangling MainCtx s
  | None => False
  end.
Proof.
  split; vm_compute; split_and!; try reflexivity.
  eexists. split; [reflexivity|]. discriminate.
Qed.

(** C8 (an empty function ends the worker).

    When [dequeueBg] pops an empty function from the front of [_bgTasks],
    whether or not [_done] is set, the worker gets it as the loop's [task],
    and from then on, whatever the other threads do: the worker is at the
    loop test with that empty function or has exited; at the loop test its
    next step leaves the loop and finishes the thread; once exited it stays
    exited; no further background task is ever started; and whatever was
    behind the empty function, and whatever is submitted later, stays in
    [_bgTasks]. *)
Theorem empty_function_ends_worker s rest :
  released (object s) = false ->
  worker s = WWait -> _bgTasks (object s) = None :: rest ->
  exists s1,
    step (Run Worker) s = Some s1 /\
    worker s1 = WLoop None /\ _bgTasks (object s1) = rest /\
    _done (object s1) = _done (object s) /\
    forall sched s',
      exec sched s1 = Some s' ->
      (worker s' = WLoop None \/ worker s' = WExited) /\
      (worker s' = WLoop None -> released (object s') = false ->
       exists s'', step (Run Worker) s' = Some s'' /\ worker s'' = WExited /\
                   _thread (object s'') = Finished) /\
      (forall sched' s'',
         worker s' = WExited -> exec sched' s' = Some s'' ->
         worker s'' = WExited) /\
      started Bg (history (object s')) = started Bg (history (object s)) /\
      exists more,
        _bgTasks (object s') = rest ++ more /\
        submitted Bg (history (object s'))
        = submitted Bg (history (object s)) ++ more.
Proof.
  intros Hr Hw Hq. eexists. split.
  { unfold step. rewrite Hr, Hw. simpl. rewrite Hq. done. }
  simpl. split_and!; try done.
  intros sched s' He.
  destruct (leaving_exec _ _ _ He) as (Hl & _ & Hs & more & Hm & Hsub);
    [by left|].
  simpl in *. split_and!; try done.
  - intros Hw' Hr'. eexists. unfold step. rewrite Hr', Hw'. simpl. done.
  - intros sched' s'' Hx He'.
    destruct (leaving_exec _ _ _ He') as (_ & Hx' & _); [by right|]. auto.
  - by exists more.
Qed.

Lemma empty_function_ends_worker_witness :
  released (object gap_state) = false /\
  worker gap_state = WWait /\
  _bgTasks (object gap_state) = None :: [Some T3] /\
  _done (object gap_state) = false /\
  exists s1,
    step (Run Worker) gap_state = Some s1 /\ worker s1 = WLoop None.
Proof.
  split_and!; try reflexivity.
  destruct (empty_function_ends_worker gap_state [Some T3] eq_refl eq_refl eq_refl)
    as (s1 & H1 & H2 & _).
  exists s1. split; [exact H1|exact H2].
Defined.

(** C9 (an empty function stalls the main queue).

    When [dequeueMain], in a reachable state, pops an empty function from
    the front of [_mainTasks], [runMainTasks] gets it as the loop's [task]
    with [_scheduledToRunOnMain] still set, and from then on, whatever the
    threads do: the flag stays set, no pump request is outstanding and none
    is issued any more; the main thread is at the loop test or idle; at
    the loop test its next step leaves the loop and returns from
    [runMainTasks], with the flag set and the queue as it is; once idle it
    stays idle; no further main task is ever started, and whatever was
    behind the empty function, and whatever is submitted later, stays in
    [_mainTasks]. *)
Theorem empty_function_stalls_main progs sched s rest :
  exec sched (createApp progs) = Some s ->
  mainThread s = MTest -> _mainTasks (object s) = None :: rest ->
  released (object s) = false ->
  exists s1,
    step (Run MainCtx) s = Some s1 /\
    mainThread s1 = MLoop None /\ _mainTasks (object s1) = rest /\
    _scheduledToRunOnMain (object s1) = true /\
    forall sched' s',
      exec sched' s1 = Some s' ->
      _scheduledToRunOnMain (object s') = true /\
      pumpRequests (object s') = 0 /\
      (mainThread s' = MLoop None \/ mainThread s' = MIdle) /\
      (mainThread s' = MLoop None -> released (object s') = false ->
       exists s'',
         step (Run MainCtx) s' = Some s'' /\ mainThread s'' = MIdle /\
         history (object s'') = DrainReturn :: history (object s') /\
         _mainTasks (object s'') = _mainTasks (object s') /\
         _scheduledToRunOnMain (object s'') = true) /\
      (forall sched'' s'',
         mainThread s' = MIdle -> exec sched'' s' = Some s'' ->
         mainThread s'' = MIdle) /\
      count PumpRequest (history (object s'))
      = count PumpRequest (history (object s)) /\
      started Main (history (object s')) = started Main (history (object s)) /\
      exists more,
        _mainTasks (object s') = rest ++ more /\
        submitted Main (history (object s'))
        = submitted Main (history (object s)) ++ more.
Proof.
  intros H Hm Hq Hr. pose proof (inv_reachable _ _ _ H) as I.
  destruct (pop_empty_function_stuck s rest (inv_main s I) Hr Hm Hq)
    as (s1 & Hs1 & Hst & Hm1 & Hq1 & Hp1 & Hstart1 & Hsub1).
  exists s1. split_and!; try done; [apply Hst|].
  intros sched' s' He.
  destruct (stuck_exec _ _ _ He Hst) as (Hst' & Hp & Hs & more & Hmore & Hsub).
  pose proof Hst' as [Hf Hd]. unfold dispatches in Hd.
  split_and!; try done; try lia; try congruence.
  - destruct (mainThread s') as [| | |[]|]; simpl in Hd; auto; lia.
  - intros Hl Hr'. eexists. unfold step. rewrite Hr', Hl. simpl.
    split_and!; done.
  - intros sched'' s'' Hi He'. by eapply stuck_idle_exec.
  - exists more. split; [by rewrite Hmore, Hq1|]. by rewrite Hsub, Hsub1.
Qed.

Lemma empty_function_stalls_main_witness :
  exec stall_pre (createApp stall_progs) = Some stall_state /\
  mainThread stall_state = MTest /\
  _mainTasks (object stall_state) = None :: [Some T1] /\
  released (object stall_state) = false /\
  exists s1 s2,
    step (Run MainCtx) stall_state = Some s1 /\ mainThread s1 = MLoop None /\
    _scheduledToRunOnMain (object s1) = true /\
    step (Run MainCtx) s1 = Some s2 /\ mainThread s2 = MIdle /\
    _mainTasks (object s2) = [Some T1] /\
    _scheduledToRunOnMain (object s2) = true.
Proof.
  split_and!; try reflexivity.
  destruct (empty_function_stalls_main stall_progs stall_pre stall_state [Some T1]
              eq_refl eq_refl eq_refl eq_refl)
    as (s1 & H1 & H2 & H3 & H4 & Hall).
  destruct (Hall [] s1 eq_refl) as (_ & _ & _ & Hexit & _).
  assert (released (object s1) = false) as Hr.
  { vm_compute in H1. by injection H1 as <-. }
  destruct (Hexit H2 Hr) as (s2 & H5 & H6 & _ & H7 & H8).
  exists s1, s2. split_and!; try done. by rewrite H7.
Defined.

(** C10 ([runMainTasks] on an empty main queue).

    When the pump calls [runMainTasks] while [_mainTasks] is empty and
    [_mainMutex] is free, the call returns after one pass through
    [dequeueMain]: it observes the queue empty and returns, no task is
    started, both queues are as before, [_scheduledToRunOnMain] is clear
    whatever it was, the mutex is free again, and no other thread is
    affected. *)
Theorem runMainTasks_on_empty_queue s n :
  released (object s) = false -> mainThread s = MIdle ->
  pumpRequests (object s) = S n ->
  _mainMutex (object s) = None -> _mainTasks (object s) = [] ->
  exists s',
    exec [Run MainCtx; Run MainCtx; Run MainCtx; Run MainCtx] s = Some s' /\
    mainThread s' = MIdle /\
    history (object s') = DrainReturn :: Empty Main :: DrainEnter :: history (object s) /\
    _bgTasks (object s') = _bgTasks (object s) /\
    _mainTasks (object s') = [] /\
    _scheduledToRunOnMain (object s') = false /\
    _mainMutex (object s') = None /\
    pumpRequests (object s') = n /\
    worker s' = worker s /\ clients s' = clients s.
Proof.
  intros Hr Hm Hp Hl Hq. eexists. split; [by apply runMainTasks_empty|].
  simpl. split_and!; done.
Qed.

Lemma runMainTasks_on_empty_queue_witness :
  released (object idle_state) = false /\
  mainThread idle_state = MIdle /\
  pumpRequests (object idle_state) = 1 /\
  _mainMutex (object idle_state) = None /\
  _mainTasks (object idle_state) = [] /\
  exists s',
    exec [Run MainCtx; Run MainCtx; Run MainCtx; Run MainCtx] idle_state
    = Some s' /\
    mainThread s' = MIdle.
Proof.
  split_and!; try reflexivity.
  destruct (runMainTasks_on_empty_queue idle_state 0
              eq_refl eq_refl eq_refl eq_refl eq_refl)
    as (s' & H1 & H2 & _).
  exists s'. split; [exact H1|exact H2].
Defined.

(** * Further properties of the code *)

(** X1.  The queues neither lose nor duplicate nor reorder anything: in
    every reachable state the functions pushed on a queue so far are the
    ones popped from it so far, in the same order, followed by the ones it
    holds.  Empty functions are no exception. *)
Theorem queues_conserve progs sched s :
  exec sched (createApp progs) = Some s ->
  submitted Bg (history (object s))
  = dequeued Bg (history (object s)) ++ _bgTasks (object s) /\
  submitted Main (history (object s))
  = dequeued Main (history (object s)) ++ _mainTasks (object s).
Proof.
  intros H. pose proof (inv_reachable _ _ _ H) as I. split.
  - apply (bg_fifo s (inv_bg s I)).
  - apply (m_fifo s (inv_main s I)).
Qed.

Lemma queues_conserve_witness :
  exec gap_pre (createApp gap_progs) = Some gap_state /\
  submitted Bg (history (object gap_state)) = [Some T1; None; Some T3] /\
  _bgTasks (object gap_state) = [None; Some T3] /\
  submitted Bg (history (object gap_state))
  = dequeued Bg (history (object gap_state)) ++ _bgTasks (object gap_state).
Proof.
  split_and!; [reflexivity|reflexivity|reflexivity|].
  exact (proj1 (queues_conserve gap_progs gap_pre gap_state eq_refl)).
Defined.

(** X2.  At most one dispatch is outstanding: in every reachable state the
    callers that have set [_scheduledToRunOnMain] and not yet asked the
    pump, the calls of [runMainTasks] the pump still owes, and the call in
    progress that has not yet seen the queue empty, are together at most
    one, and none when the flag is clear.  A non-empty main queue always
    has the flag set; and as long as no empty function was popped from the
    main queue, the flag is set exactly when one dispatch is outstanding. *)
Theorem one_dispatch_outstanding progs sched s :
  exec sched (createApp progs) = Some s ->
  dispatches s <= b2n (_scheduledToRunOnMain (object s)) /\
  pumpRequests (object s) + in_drain (mainThread s) <= 1 /\
  (_mainTasks (object s) <> [] -> _scheduledToRunOnMain (object s) = true) /\
  (None ∉ dequeued Main (history (object s)) ->
   dispatches s = b2n (_scheduledToRunOnMain (object s))).
Proof.
  intros H. pose proof (inv_main s (inv_reachable _ _ _ H)) as I.
  pose proof (m_le s I) as Hle. split_and!.
  - exact Hle.
  - unfold dispatches in Hle.
    destruct (_scheduledToRunOnMain (object s)); simpl in Hle; lia.
  - apply (m_flag s I).
  - apply (m_eq s I).
Qed.

Lemma one_dispatch_outstanding_witness :
  exec stall_pre (createApp stall_progs) = Some stall_state /\
  _mainTasks (object stall_state) = [None; Some T1] /\
  _scheduledToRunOnMain (object stall_state) = true /\
  pumpRequests (object stall_state) + in_drain (mainThread stall_state) <= 1.
Proof.
  split_and!; [reflexivity|reflexivity|reflexivity|].
  exact (proj1 (proj2
           (one_dispatch_outstanding stall_progs stall_pre stall_state eq_refl))).
Defined.

(** X3.  No wake-up is lost: in every reachable state in which the worker
    is blocked in [_condition.wait], it is blocked at the wait of
    [dequeueBg] and the object is not released; and if the queue is not
    empty or [_done] is set, some thread stands right before its
    [notify_one], can take that step, and the worker is no longer blocked
    after it. *)
Theorem no_lost_wakeup progs sched s :
  exec sched (createApp progs) = Some s ->
  _condition (object s) = true ->
  worker s = WSleep /\ released (object s) = false /\
  (_bgTasks (object s) <> [] \/ _done (object s) = true ->
   exists t th s',
     thread t s = Some th /\ at_notify th = 1 /\
     step (Run t) s = Some s' /\ _condition (object s') = false).
Proof.
  intros H Hc. pose proof (inv_reachable _ _ _ H) as I.
  pose proof (bg_cond s (inv_bg s I)) as Hw.
  assert (worker s = WSleep) as Hs.
  { destruct (worker s); try done; congruence. }
  assert (released (object s) = false) as Hr.
  { destruct (released (object s)) eqn:E; [|done].
    destruct (released_joined s I E). congruence. }
  split_and!; try done. intros Hq.
  destruct (tsum_pos _ _ (l_notify s (inv_life s I) Hc Hq)) as (t & th & Ht & Hn).
  exists t, th. unfold step. rewrite Hr.
  destruct t as [| |i]; simpl in Ht; simplify_eq.
  - rewrite Hs in Hn. done.
  - unfold at_notify in *. simpl.
    destruct (mainThread s) as [| | | |? [|[] ?]]; try done.
    eexists. split_and!; reflexivity.
  - unfold at_notify in *. simpl.
    destruct (clients s !! i) as [[|[]|[]]|]; simplify_eq/=; try done.
    all: eexists; split_and!; reflexivity.
Qed.

Lemma no_lost_wakeup_witness :
  exec wake_sched (createApp wake_progs) = Some wake_state /\
  _condition (object wake_state) = true /\
  _bgTasks (object wake_state) = [Some T1] /\
  exists t th s',
    thread t wake_state = Some th /\ at_notify th = 1 /\
    step (Run t) wake_state = Some s' /\ _condition (object s') = false.
Proof.
  split_and!; [reflexivity|reflexivity|reflexivity|].
  apply (proj2 (proj2 (no_lost_wakeup wake_progs wake_sched wake_state
                         eq_refl eq_refl))).
  left. discriminate.
Defined.

(** X4.  A spurious wake-up is harmless: a worker woken from
    [_condition.wait] without a notification, with the queue empty and
    [_done] unset, locks [_mutex], finds the predicate false and waits
    again, and the state is exactly what it was. *)
Theorem spurious_wake_goes_back_to_sleep s :
  released (object s) = false -> worker s = WSleep ->
  _condition (object s) = true -> _mutex (object s) = None ->
  _bgTasks (object s) = [] -> _done (object s) = false ->
  exec [Spurious; Run Worker; Run Worker] s = Some s.
Proof.
  destruct s as [o w m cs]. destruct o as [mu cv dn bq th mm mq fl pr rel h].
  simpl. intros -> -> -> -> -> ->. reflexivity.
Qed.

Lemma spurious_wake_goes_back_to_sleep_witness :
  released (object demo_state) = false /\ worker demo_state = WSleep /\
  _condition (object demo_state) = true /\ _mutex (object demo_state) = None /\
  _bgTasks (object demo_state) = [] /\ _done (object demo_state) = false /\
  exec [Spurious; Run Worker; Run Worker] demo_state = Some demo_state.
Proof.
  split_and!; [reflexivity..|].
  exact (spurious_wake_goes_back_to_sleep demo_state
           eq_refl eq_refl eq_refl eq_refl eq_refl eq_refl).
Defined.

(** X5.  The scheduler does not deadlock: in every reachable state that is
    not released and in which no thread can move, both mutexes are free,
    every caller has returned from all its calls, the main thread is
    outside [runMainTasks] with no call owed by the pump, and the worker
    either waits in [dequeueBg] on an empty queue with [_done] unset or has
    left its loop; it has not left it if no empty function was popped. *)
Theorem rest_is_idle progs sched s :
  exec sched (createApp progs) = Some s ->
  terminal s -> released (object s) = false ->
  _mutex (object s) = None /\ _mainMutex (object s) = None /\
  (forall i c, clients s !! i = Some c -> c = CNext []) /\
  mainThread s = MIdle /\ pumpRequests (object s) = 0 /\
  (worker s = WSleep /\ _condition (object s) = true /\
   _bgTasks (object s) = [] /\ _done (object s) = false
   \/ worker s = WExited) /\
  (None ∉ dequeued Bg (history (object s)) -> worker s = WSleep).
Proof.
  intros H Ht Hr. pose proof (inv_reachable _ _ _ H) as I.
  destruct (terminal_unlocked s (inv_lock s I) Ht Hr) as [Hb Hm].
  pose proof (terminal_blocked s MainCtx _ (inv_lock s I) Ht Hr eq_refl) as Hmain.
  pose proof (terminal_blocked s Worker _ (inv_lock s I) Ht Hr eq_refl) as Hw.
  split_and!; try done.
  - intros i c. by apply terminal_callers.
  - by destruct (mainThread s).
  - by destruct (mainThread s).
  - destruct (worker s) eqn:Ew; try done; [left|by right]. simpl in Hw.
    pose proof (tsum_terminal at_notify s (inv_lock s I) Ht Hr) as Hn.
    pose proof (l_notify s (inv_life s I) Hw) as Hl.
    assert (~ (_bgTasks (object s) <> [] \/ _done (object s) = true)) as Hq.
    { intros Hq. apply (Hl Hq), Hn. blocked_cases. }
    split_and!; try done.
    + destruct (_bgTasks (object s)); [done|]. destruct Hq. by left.
    + destruct (_done (object s)); [|done]. destruct Hq. by right.
  - intros Hn. by apply terminal_bg.
Qed.

Lemma rest_is_idle_witness :
  exec demo_sched (createApp demo_progs) = Some demo_state /\
  terminal demo_state /\ released (object demo_state) = false /\
  mainThread demo_state = MIdle /\ worker demo_state = WSleep.
Proof.
  assert (terminal demo_state) as Ht by (intros [| |[|?]]; reflexivity).
  pose proof (rest_is_idle demo_progs demo_sched demo_state eq_refl Ht eq_refl)
    as (_ & _ & _ & Hm & _ & _ & Hw).
  split_and!; [reflexivity|exact Ht|reflexivity|exact Hm|].
  apply Hw. vm_compute. intros Hin. by repeat (apply elem_of_cons in Hin as [|Hin]; [done|]); apply elem_of_nil in Hin.
Defined.

(** X6.  For the finite tasks of the model (a callable that submits
    itself again without end is not one) the scheduler does a bounded
    amount of work: an execution of the callers' programs that has no
    spurious wake-up takes at most [measure (createApp progs)] steps, a
    number computed from the programs alone; and from every reachable
    state the scheduler that always moves the first thread that can move
    reaches, within [measure s] steps, a state in which no thread can
    move.  No thread spins: each step of the worker's loop, of
    [runMainTasks] and of the destructor uses up some of the submitted
    work. *)
Theorem bounded_work progs sched s :
  exec sched (createApp progs) = Some s ->
  (Spurious ∉ sched -> length sched + measure s <= measure (createApp progs)) /\
  exec ((run (measure s) s).1) s = Some ((run (measure s) s).2) /\
  terminal (run (measure s) s).2 /\
  length (run (measure s) s).1 <= measure s.
Proof.
  intros H. split; [|].
  - intros Hs. by apply exec_measure.
  - destruct (run_terminal (measure s) s (le_n _)) as (He & Ht & Hs).
    split_and!; try done.
    pose proof (exec_measure _ _ _ Hs He). lia.
Qed.

Lemma bounded_work_witness :
  exec demo_sched (createApp demo_progs) = Some demo_state /\
  (Spurious ∉ demo_sched) /\
  length demo_sched + measure demo_state <= measure (createApp demo_progs).
Proof.
  assert (Spurious ∉ demo_sched) as Hs.
  { vm_compute. intros Hin.
    by repeat (apply elem_of_cons in Hin as [|Hin]; [done|]);
      apply elem_of_nil in Hin. }
  split_and!; [reflexivity|exact Hs|].
  exact (proj1 (bounded_work demo_progs demo_sched demo_state eq_refl) Hs).
Defined.

(** X7.  [runOnBgThread(f)] run without interruption, from a state in
    which [_mutex] is free, returns after three steps of the caller: [f]
    is at the back of [_bgTasks], the worker is not blocked in the wait
    any more, [_mutex] is free again, and nothing else has changed: the
    main queue, its flag, the pump requests, [_done] and every other
    thread are as before. *)
Theorem runOnBgThread_alone s i f k :
  released (object s) = false -> _mutex (object s) = None ->
  clients s !! i = Some (CNext (Call (RunOnBgThread f) :: k)) ->
  exists s',
    exec (replicate 3 (Run (Client i))) s = Some s' /\
    clients s' = <[i := CNext k]> (clients s) /\
    worker s' = worker s /\ mainThread s' = mainThread s /\
    _bgTasks (object s') = _bgTasks (object s) ++ [f] /\
    _condition (object s') = false /\ _mutex (object s') = None /\
    history (object s') = Submit Bg f :: history (object s) /\
    _done (object s') = _done (object s) /\
    _thread (object s') = _thread (object s) /\
    _mainMutex (object s') = _mainMutex (object s) /\
    _mainTasks (object s') = _mainTasks (object s) /\
    _scheduledToRunOnMain (object s') = _scheduledToRunOnMain (object s) /\
    pumpRequests (object s') = pumpRequests (object s) /\
    released (object s') = false.
Proof.
  intros Hr Hm Hc. eexists. split.
  - simpl. unfold step at 1. rewrite Hr, Hc. simpl. unfold lock_mutex. rewrite Hm.
    simpl. unfold step at 1. simpl. rewrite Hr.
    rewrite list_lookup_insert_eq by (by eapply lookup_lt_Some). simpl.
    unfold step at 1. simpl. rewrite Hr.
    rewrite list_lookup_insert_eq
      by (rewrite length_insert; by eapply lookup_lt_Some).
    simpl. reflexivity.
  - simpl. rewrite !list_insert_insert_eq. split_and!; done.
Qed.

Lemma runOnBgThread_alone_witness :
  released (object (createApp wake_progs)) = false /\
  _mutex (object (createApp wake_progs)) = None /\
  clients (createApp wake_progs) !! 0
  = Some (CNext (Call (RunOnBgThread (Some T1)) :: [])) /\
  exists s',
    exec (replicate 3 (Run (Client 0))) (createApp wake_progs) = Some s' /\
    _bgTasks (object s') = [Some T1].
Proof.
  split_and!; [reflexivity..|].
  destruct (runOnBgThread_alone (createApp wake_progs) 0 (Some T1) []
              eq_refl eq_refl eq_refl) as (s' & He & _ & _ & _ & Hq & _).
  exists s'. split; [exact He|exact Hq].
Defined.

(** X10.  For the finite tasks of the model the destructor does not
    hang: from every reachable state every execution comes to rest, and if
    [_done] has been set by then, the destructor has run to its end: the
    worker has left its loop, has been joined, and the object is released.
    Empty functions in the queue make no difference to this.  (A task that
    submits itself to the background queue again without end would keep
    the worker in its loop and the destructor in [join].) *)
Theorem destructor_completes progs sched s :
  exec sched (createApp progs) = Some s ->
  inevitably s (fun s' =>
    count Shutdown (history (object s')) <> 0 ->
    released (object s') = true /\ worker s' = WExited /\
    _thread (object s') = Joined).
Proof.
  intros H. apply inevitably_intro. intros sched' s' He Ht Hs.
  pose proof (inv_continue _ _ _ _ _ H He) as I.
  destruct (released (object s')) eqn:Hr.
  { split; [done|]. by apply released_joined. }
  exfalso. apply Hs.
  rewrite (l_shutdown s' (inv_life s' I)), (l_released s' (inv_life s' I)), Hr.
  destruct (decide (tsum past_set s' = 0)) as [->|Hne]; [done|].
  apply tsum_pos in Hne as (t & th & Hth & Hne).
  destruct t as [| |i]; simpl in Hth; simplify_eq; try done.
  destruct (clients s' !! i) as [c|] eqn:Hc; simplify_eq/=.
  by rewrite (terminal_callers s' i c I Ht Hr Hc) in Hne.
Qed.

Lemma destructor_completes_witness :
  exec [] (createApp cut_progs) = Some (createApp cut_progs) /\
  inevitably (createApp cut_progs) (fun s' =>
    count Shutdown (history (object s')) <> 0 ->
    released (object s') = true /\ worker s' = WExited /\
    _thread (object s') = Joined).
Proof.
  split; [reflexivity|].
  exact (destructor_completes cut_progs [] (createApp cut_progs) eq_refl).
Defined.

(** ** The demo, in every interleaving *)

Lemma task_eqb_body n b m c :
  task_eqb (Task n b) (Task m c) = (n =? m) && calls_eqb b c.
Proof.
  simpl. f_equal.
Qed.

Lemma task_eqb_spec k :
  (forall t u, task_cost t <= k -> (task_eqb t u = true <-> t = u)) /\
  (forall x y, call_cost x <= k -> (call_eqb x y = true <-> x = y)).
Proof.
  induction k as [k IH] using lt_wf_ind.
  assert (forall x y, call_cost x < k -> (call_eqb x y = true <-> x = y)) as IHc.
  { intros x y Hx. apply (IH (call_cost x)); [done|lia]. }
  assert (forall t u, task_cost t < k -> (task_eqb t u = true <-> t = u)) as IHt.
  { intros x y Hx. apply (IH (task_cost x)); [done|lia]. }
  split.
  - intros [n b] [m c] Hk. rewrite task_eqb_body, andb_true_iff, Nat.eqb_eq.
    rewrite task_cost_body in Hk. simpl in Hk.
    assert (calls_eqb b c = true <-> b = c) as ->; [|split; [intros [-> ->]; done|intros [= -> ->]; done]].
    revert c Hk. induction b as [|x b IHb]; intros [|y c] Hk; simpl in *; try done.
    rewrite andb_true_iff, IHb, IHc by lia. split; [intros [-> ->]; done|intros [= -> ->]; done].
  - intros [[t|]|[t|]] [[u|]|[u|]] Hk; simpl in *; try done.
    all: rewrite IHt by lia; split; [intros ->; done|intros [= ->]; done].
Qed.
Lemma milestones_idem h : milestones (milestones h) = milestones h.
Proof.
  induction h as [|e h IH]; simpl; [done|].
  destruct (milestone e) eqn:E; simpl; [rewrite E|]; by rewrite ?IH.
Qed.

Lemma shared_ext (o p : shared) :
  _mutex o = _mutex p -> _condition o = _condition p -> _done o = _done p ->
  _bgTasks o = _bgTasks p -> _thread o = _thread p ->
  _mainMutex o = _mainMutex p -> _mainTasks o = _mainTasks p ->
  _scheduledToRunOnMain o = _scheduledToRunOnMain p ->
  pumpRequests o = pumpRequests p -> released o = released p ->
  history o = history p -> o = p.
Proof. destruct o, p. simpl. by intros -> -> -> -> -> -> -> -> -> -> ->. Qed.

Ltac setters :=
  try done;
  apply (f_equal Some); apply (f_equal4 mkState); try reflexivity;
  apply shared_ext; simpl; rewrite ?milestones_idem; reflexivity.

Lemma step_forget l s : forget <$> step l (forget s) = forget <$> step l s.
Proof.
  destruct s as [o w m cs]. destruct o as [mu cv dn bq th mm mq fl pr rel h].
  unfold step, forget. simpl.
  destruct rel; [done|].
  destruct l as [[| |i]|]; simpl.
  - destruct w as [| | |[]|? [[|[]]|[]]|]; simpl; try done.
    all: unfold lock_mutex, lock_mainMutex; simpl.
    all: repeat (case_match; simpl; simplify_eq; try done).
    all: setters.
  - destruct m as [| | |[]|? [[|[]]|[]]]; simpl; try done.
    all: unfold lock_mutex, lock_mainMutex; simpl.
    all: repeat (case_match; simpl; simplify_eq; try done).
    all: setters.
  - destruct (cs !! i) as [[[|[[]|]]|[]|[]]|]; simpl; try done.
    all: unfold lock_mutex, lock_mainMutex; simpl.
    all: repeat (case_match; simpl; simplify_eq; try done).
    all: setters.
  - unfold spurious_wake. simpl. destruct cv; [|done]. setters.
Qed.

Lemma list_eqb_eq {A} (eqb : A -> A -> bool) (l k : list A) :
  (forall x y, eqb x y = true -> x = y) -> list_eqb eqb l k = true -> l = k.
Proof.
  intros Heq. revert k. induction l as [|x l IH]; intros [|y k]; simpl; try done.
  intros [Hx Hl]%andb_true_iff. by rewrite (Heq _ _ Hx), (IH _ Hl).
Qed.

Lemma task_eqb_eq t u : task_eqb t u = true -> t = u.
Proof. apply (proj1 (task_eqb_spec _) t u (le_n _)). Qed.

Lemma call_eqb_eq x y : call_eqb x y = true -> x = y.
Proof. apply (proj2 (task_eqb_spec _) x y (le_n _)). Qed.

Lemma func_eqb_eq f g : func_eqb f g = true -> f = g.
Proof. destruct f, g; simpl; try done. by intros ->%task_eqb_eq. Qed.

Lemma op_eqb_eq o p : op_eqb o p = true -> o = p.
Proof. destruct o, p; simpl; try done. by intros ->%call_eqb_eq. Qed.

Lemma owner_eqb_eq t u : owner_eqb t u = true -> t = u.
Proof.
  destruct t as [[]|], u as [[]|]; simpl; try done. by intros ->%Nat.eqb_eq.
Qed.

Lemma pc_eqb_eq p q : pc_eqb p q = true -> p = q.
Proof. destruct p, q; simpl; try done; by intros ->%func_eqb_eq. Qed.

Lemma ctl_eqb_eq c d : ctl_eqb c d = true -> c = d.
Proof.
  destruct c, d; simpl; try done.
  - by intros ->%(list_eqb_eq _ _ _ call_eqb_eq).
  - by intros [->%pc_eqb_eq ->%(list_eqb_eq _ _ _ call_eqb_eq)]%andb_true_iff.
Qed.

Lemma wstate_eqb_eq w v : wstate_eqb w v = true -> w = v.
Proof.
  destruct w, v; simpl; try done.
  - by intros ->%func_eqb_eq.
  - by intros [->%task_eqb_eq ->%ctl_eqb_eq]%andb_true_iff.
Qed.

Lemma mstate_eqb_eq m n : mstate_eqb m n = true -> m = n.
Proof.
  destruct m, n; simpl; try done.
  - by intros ->%func_eqb_eq.
  - by intros [->%task_eqb_eq ->%ctl_eqb_eq]%andb_true_iff.
Qed.

Lemma cstate_eqb_eq c d : cstate_eqb c d = true -> c = d.
Proof.
  destruct c as [?|? ?|x ?], d as [?|? ?|y ?]; simpl; try done.
  - by intros ->%(list_eqb_eq _ _ _ op_eqb_eq).
  - by intros [->%pc_eqb_eq ->%(list_eqb_eq _ _ _ op_eqb_eq)]%andb_true_iff.
  - intros [Hd ->%(list_eqb_eq _ _ _ op_eqb_eq)]%andb_true_iff.
    by destruct x, y.
Qed.

Lemma event_eqb_eq e e' : event_eqb e e' = true -> e = e'.
Proof.
  destruct e as [[] ?|[] ?|[]|[] ?|[] ?| | | | | | | |],
           e' as [[] ?|[] ?|[]|[] ?|[] ?| | | | | | | |]; simpl; try done.
  all: first [by intros ->%func_eqb_eq | by intros ->%task_eqb_eq].
Qed.

Lemma shared_eqb_eq o p : shared_eqb o p = true -> o = p.
Proof.
  unfold shared_eqb. rewrite !andb_true_iff.
  intros ((((((((((H1 & H2) & H3) & H4) & H5) & H6) & H7) & H8) & H9) & H10) & H11).
  apply shared_ext.
  - by apply owner_eqb_eq.
  - by apply Bool.eqb_prop.
  - by apply Bool.eqb_prop.
  - by apply (list_eqb_eq _ _ _ func_eqb_eq).
  - by destruct (_thread o), (_thread p).
  - by apply owner_eqb_eq.
  - by apply (list_eqb_eq _ _ _ func_eqb_eq).
  - by apply Bool.eqb_prop.
  - by apply Nat.eqb_eq.
  - by apply Bool.eqb_prop.
  - by apply (list_eqb_eq _ _ _ event_eqb_eq).
Qed.

Lemma state_eqb_eq s s' : state_eqb s s' = true -> s = s'.
Proof.
  unfold state_eqb. rewrite !andb_true_iff.
  intros (((Hw & Hm) & Hc) & Ho). destruct s, s'. simpl in *.
  by rewrite (wstate_eqb_eq _ _ Hw), (mstate_eqb_eq _ _ Hm),
    (list_eqb_eq _ _ _ cstate_eqb_eq Hc), (shared_eqb_eq _ _ Ho).
Qed.

Lemma known_elem_of s S : known s S = true -> s ∈ S.
Proof.
  unfold known. induction S as [|r S IH]; simpl; [done|].
  intros [->%state_eqb_eq|H]%orb_true_iff; [left|right; auto].
Qed.

Lemma forget_forget s : forget (forget s) = forget s.
Proof.
  destruct s as [o w m cs]. unfold forget. simpl. f_equal.
  apply shared_ext; simpl; by rewrite ?milestones_idem.
Qed.

(** The moves of the forgetful state cover the steps of the state. *)
Lemma moves_step l s s' :
  step l s = Some s' -> forget s' ∈ moves (forget s).
Proof.
  intros H. pose proof (step_forget l s) as Hf. rewrite H in Hf. simpl in Hf.
  destruct (step l (forget s)) as [r|] eqn:Hr; [|done].
  apply list_elem_of_omap. exists l. split; [|by rewrite Hr].
  apply elem_of_app. destruct l as [t|]; [left|right; left].
  destruct (labels_spec (forget s) t); [done|congruence].
Qed.

Lemma closed_exec S sched s s' :
  closed S = true -> forget s ∈ S -> exec sched s = Some s' -> forget s' ∈ S.
Proof.
  intros HS. revert s. induction sched as [|l sched IH]; intros s Hin He.
  - by simplify_eq/=.
  - simpl in He. destruct (step l s) as [s1|] eqn:Hs; [|done].
    apply (IH s1); [|done].
    unfold closed in HS. rewrite forallb_forall in HS.
    apply list_elem_of_In in Hin. specialize (HS _ Hin).
    rewrite forallb_forall in HS. apply known_elem_of, HS.
    apply list_elem_of_In. by eapply moves_step.
Qed.

Lemma terminal_at_rest s : terminal s -> at_rest (forget s) = true.
Proof.
  intros Ht. unfold at_rest. apply forallb_forall. intros l Hl.
  apply list_elem_of_In in Hl.
  destruct l as [t|]; [|by destruct (labels_run (forget s))].
  pose proof (step_forget (Run t) s) as Hf. rewrite (Ht t) in Hf.
  by destruct (step (Run t) (forget s)).
Qed.

Lemma runTasks_states_closed : closed runTasks_states = true.
Proof. vm_compute. reflexivity. Qed.

Lemma runTasks_states_start : known (forget (createApp [runTasks])) runTasks_states = true.
Proof. vm_compute. reflexivity. Qed.

Lemma runTasks_states_rest :
  forallb (fun s => implb (at_rest s) (runTasks_done s)) runTasks_states = true.
Proof. vm_compute. reflexivity. Qed.

Lemma runTasks_done_complete sched s :
  exec sched (createApp [runTasks]) = Some s ->
  runTasks_done (forget s) = true -> exists again, runTasks_complete again s.
Proof.
  intros He. pose proof (inv_reachable _ _ _ He) as I.
  unfold runTasks_done. rewrite !andb_true_iff, orb_true_iff. simpl.
  intros (((((((Ho & Hw%wstate_eqb_eq) & Hm%mstate_eqb_eq)
               & Hb%(list_eqb_eq _ _ _ func_eqb_eq))
              & Hq%(list_eqb_eq _ _ _ func_eqb_eq)) & Hf%negb_true_iff)
            & Hp%Nat.eqb_eq) & Hr%negb_true_iff).
  assert (exists again, rev (milestones (history (object s))) = runTasks_order again)
    as [again Ha].
  { destruct Ho as [Ho|Ho]; apply (list_eqb_eq _ _ _ event_eqb_eq) in Ho; eauto. }
  exists again. unfold runTasks_complete. split_and!; try done.
  - pose proof (bg_run s (inv_bg s I)) as Hrun. rewrite Hw in Hrun.
    simpl in Hrun. by rewrite app_nil_r in Hrun.
  - pose proof (m_run s (inv_main s I)) as Hrun. rewrite Hm in Hrun.
    simpl in Hrun. by rewrite app_nil_r in Hrun.
Qed.

(** X8.  The demo's entry points, called in turn by one caller on a fresh
    object ([runTask1] to [runTask5], the pump calling [runMainTasks]
    whenever it was asked to): every execution comes to rest, and when it
    has, the closures have started in this order and each has run to its
    end exactly once: those of [runTask1] to [runTask4] and the outer
    closure of [runTask5] on the worker, then the first main closure of
    [runTask5], then its inner background closure, then its last main
    closure.  The pump was asked once for the first main closure, and once
    more for the last one unless the worker submitted it before
    [runMainTasks] saw the main queue empty; both happen.  At rest the
    worker waits, the main thread is idle, both queues are empty and the
    flag is clear. *)
Theorem runTasks_converge :
  inevitably (createApp [runTasks]) (fun s =>
    exists again, runTasks_complete again s) /\
  (exists s, exec runTasks_once (createApp [runTasks]) = Some s /\
             terminal s /\ runTasks_complete false s) /\
  (exists s, exec runTasks_twice (createApp [runTasks]) = Some s /\
             terminal s /\ runTasks_complete true s).
Proof.
  split_and!.
  - apply inevitably_intro. intros sched s He Ht.
    apply (runTasks_done_complete sched s He).
    pose proof (closed_exec _ _ _ _ runTasks_states_closed
                  (known_elem_of _ _ runTasks_states_start) He) as Hin.
    pose proof runTasks_states_rest as Hall. rewrite forallb_forall in Hall.
    apply list_elem_of_In in Hin. specialize (Hall _ Hin).
    by rewrite (terminal_at_rest s Ht) in Hall.
  - eexists. split; [vm_compute; reflexivity|].
    split; [intros [| |[|?]]; reflexivity|].
    unfold runTasks_complete. split_and!; reflexivity.
  - eexists. split; [vm_compute; reflexivity|].
    split; [intros [| |[|?]]; reflexivity|].
    unfold runTasks_complete. split_and!; reflexivity.
Qed.

(** X9.  A handle identifies its object: for every address that fits a
    pointer, [to_js] gives a value in the range of [intptr_t], [to_cpp]
    gives the address back from it, and different addresses have
    different handles. *)
Theorem handle_round_trip (bits app : Z) :
  (0 < bits)%Z -> (0 <= app < 2 ^ bits)%Z ->
  (- 2 ^ (bits - 1) <= to_js bits app < 2 ^ (bits - 1))%Z /\
  to_cpp bits (to_js bits app) = app /\
  (forall app', (0 <= app' < 2 ^ bits)%Z ->
     to_js bits app = to_js bits app' -> app = app').
Proof.
  intros Hb Ha.
  assert (2 ^ bits = 2 * 2 ^ (bits - 1))%Z as E.
  { rewrite <- Z.pow_succ_r by lia. f_equal. lia. }
  assert (0 < 2 ^ (bits - 1))%Z as Hp by (apply Z.pow_pos_nonneg; lia).
  assert (forall a, (0 <= a < 2 ^ bits)%Z -> to_cpp bits (to_js bits a) = a) as Hrt.
  { intros a Hr. unfold to_cpp, to_js. destruct (Z.ltb_spec a (2 ^ (bits - 1))).
    - apply Z.mod_small. lia.
    - rewrite <- (Z.mod_add _ 1) by lia. rewrite Z.mul_1_l, Z.sub_add.
      apply Z.mod_small. lia. }
  split; [|split].
  - unfold to_js. destruct (Z.ltb_spec app (2 ^ (bits - 1))); lia.
  - by apply Hrt.
  - intros app' Ha' Heq. rewrite <- (Hrt app Ha), Heq. by apply Hrt.
Qed.

Lemma handle_round_trip_witness :
  (0 < 32)%Z /\ (0 <= 4294901760 < 2 ^ 32)%Z /\
  to_js 32 4294901760 = (-65536)%Z /\
  to_cpp 32 (to_js 32 4294901760) = 4294901760%Z.
Proof.
  assert (0 < 32)%Z as Hb by reflexivity.
  assert (0 <= 4294901760 < 2 ^ 32)%Z as Ha by (split; [discriminate|reflexivity]).
  split; [exact Hb|split; [exact Ha|split; [reflexivity|]]].
  exact (proj1 (proj2 (handle_round_trip 32 4294901760 Hb Ha))).
Defined.
